(** * Island genetic algorithm for the 0/1 knapsack problem

    A shallow embedding of [island_genetic_algorithm.py] (genome codec,
    fitness evaluation and the island driver) and of the [Knapsack] record
    of the instance generator, together with the properties that the
    specification states about them.

    Conventions of the embedding.
    - Python [int]s are [Z].  The integer numpy arrays hold 64-bit signed
      integers: their entries lie in [[-2^63, 2^63 - 1]] and the arithmetic
      on them wraps around ([Np.int64]).
    - A Python exception is a value [Raise e] of the result type.
    - The float [selection_percentage] is a rational number and its product
      with the population size is taken exactly.  A product that is at most
      1 exactly is also at most 1 after rounding, and the fractions used in
      the examples ([1], [1/2], [-1/2]) have exact products.
    - The operators inherited from the base class [GeneticAlgorithm]
      (population initialisation, selection, crossover, mutation) live in a
      module that is not part of the development; they are parameters of the
      driver section and thread the state of the random generator. *)

From Stdlib Require Import ZArith List String Ascii Bool Lia.
From Stdlib Require Import DecimalString Sorted Permutation.
From Stdlib Require Import QArith Qround.
Import ListNotations.

Local Open Scope Z_scope.

(** ** Exceptions *)

Inductive exn : Type :=
| ValueError
| IndexError.

Inductive res (A : Type) : Type :=
| Ok (a : A)
| Raise (e : exn).

Arguments Ok {A} a.
Arguments Raise {A} e.

Definition res_bind {A B : Type} (r : res A) (k : A -> res B) : res B :=
  match r with
  | Ok a => k a
  | Raise e => Raise e
  end.

Notation "x <- r ;; k" := (res_bind r (fun x => k))
  (at level 61, r at next level, right associativity).

(** [[f(x) for x in l]] for an [f] that may raise. *)
Fixpoint res_map {A B : Type} (f : A -> res B) (l : list A) : res (list B) :=
  match l with
  | [] => Ok []
  | x :: t => y <- f x ;; ys <- res_map f t ;; Ok (y :: ys)
  end.

(** ** The Python built-ins the program uses *)

Module Py.

(** [len(s)] *)
Definition len (s : string) : Z := Z.of_nat (String.length s).

(** [c * k] for a one-character string [c]: empty when [k <= 0]. *)
Definition str_mul (c : ascii) (k : Z) : string :=
  string_of_list_ascii (repeat c (Z.to_nat k)).

(** The digits of [bin(p)] for a positive [p], pushed in front of [acc]. *)
Fixpoint bin_pos (p : positive) (acc : string) : string :=
  match p with
  | xH => String "1" acc
  | xO q => bin_pos q (String "0" acc)
  | xI q => bin_pos q (String "1" acc)
  end.

(** [bin(z)[2:]]: for [z >= 0] the binary digits of [z]; [bin] of a negative
    number starts with ["-0b"], so the slice keeps the ["b"]. *)
Definition bin_tail (z : Z) : string :=
  match z with
  | Z0 => "0"
  | Zpos p => bin_pos p ""
  | Zneg p => String "b" (bin_pos p "")
  end.

(** [s.zfill(w)] for a string [s] without sign. *)
Definition zfill (s : string) (w : Z) : string :=
  (str_mul "0" (w - len s) ++ s)%string.

(** [int(c)] for a one-character string [c]. *)
Definition int_of_char (c : ascii) : res Z :=
  let k := Z.of_nat (nat_of_ascii c) in
  if (48 <=? k) && (k <=? 57) then Ok (k - 48) else Raise ValueError.

(** [str(z)] for an [int] [z]. *)
Definition str (z : Z) : string := NilZero.string_of_int (Z.to_int z).

(** [''.join(l)] *)
Definition join (l : list string) : string :=
  fold_right String.append EmptyString l.

(** The value of a run of binary digits after the ["0b"] prefix, [acc] being
    the value of the digits already read. *)
Fixpoint bin_value (s : string) (acc : Z) : res Z :=
  match s with
  | EmptyString => Ok acc
  | String c t =>
      if Ascii.eqb c "0" then bin_value t (2 * acc)
      else if Ascii.eqb c "1" then bin_value t (2 * acc + 1)
      else Raise ValueError
  end.

(** [int('0b' + s, 2)] where [s] is made of the characters of decimal
    numerals: the call succeeds exactly when [s] is a non-empty run of
    the digits 0 and 1. *)
Definition int_0b (s : string) : res Z :=
  match s with
  | EmptyString => Raise ValueError
  | _ => bin_value s 0
  end.

(** [max(l, key=key)]: the first entry whose key no later entry exceeds;
    [best] is the entry retained so far. *)
Fixpoint max_from {A K : Type} (ltb : K -> K -> bool) (key : A -> K)
    (best : A) (l : list A) : A :=
  match l with
  | [] => best
  | x :: t =>
      if ltb (key best) (key x) then max_from ltb key x t
      else max_from ltb key best t
  end.

Definition max_key {A K : Type} (ltb : K -> K -> bool) (key : A -> K)
    (l : list A) : res A :=
  match l with
  | [] => Raise ValueError
  | x :: t => Ok (max_from ltb key x t)
  end.

End Py.

(** ** The numpy functions the program uses *)

Module Np.

(** [np.binary_repr(num, width)] with a width given: zero-padded binary
    digits for [num >= 0], two's complement padded with ones for [num < 0];
    a width that is too small is not enforced, the whole representation is
    returned. *)
Definition binary_repr (num width : Z) : string :=
  match num with
  | Z0 => Py.str_mul "0" (if width =? 0 then 1 else width)
  | Zpos _ =>
      let binary := Py.bin_tail num in
      let binwidth := Py.len binary in
      let outwidth := Z.max binwidth width in
      Py.zfill binary outwidth
  | Zneg _ =>
      let poswidth := Py.len (Py.bin_tail (- num)) in
      let poswidth :=
        if 2 ^ (poswidth - 1) =? - num then poswidth - 1 else poswidth in
      let twocomp := 2 ^ (poswidth + 1) + num in
      let binary := Py.bin_tail twocomp in
      let binwidth := Py.len binary in
      let outwidth := Z.max binwidth width in
      (Py.str_mul "1" (outwidth - binwidth) ++ binary)%string
  end.

(** A 64-bit signed integer: the representative of [z] modulo [2^64] in
    [[-2^63, 2^63 - 1]]. *)
Definition int64 (z : Z) : Z := (z + 2 ^ 63) mod 2 ^ 64 - 2 ^ 63.

(** The sum of the entry-wise products of two lists of the same length. *)
Fixpoint dot_sum (a b : list Z) : Z :=
  match a, b with
  | x :: a', y :: b' => x * y + dot_sum a' b'
  | _, _ => 0
  end.

(** [np.dot(a, b)] for one-dimensional arrays of 64-bit integers: the shapes
    must agree, and the sum of the products wraps around. *)
Definition dot (a b : list Z) : res Z :=
  if Nat.eqb (List.length a) (List.length b) then Ok (int64 (dot_sum a b))
  else Raise ValueError.

(** [np.hstack((a, b))] for one-dimensional arrays. *)
Definition hstack (a b : list Z) : list Z := a ++ b.

Fixpoint insert (x : Z) (l : list Z) : list Z :=
  match l with
  | [] => [x]
  | y :: t => if x <=? y then x :: l else y :: insert x t
  end.

(** [np.sort] *)
Fixpoint sort (l : list Z) : list Z :=
  match l with
  | [] => []
  | x :: t => insert x (sort t)
  end.

(** The mask [ar[1:] != ar[:-1]] applied to a sorted array: the first entry
    of every run of equal values is kept. *)
Fixpoint drop_repeats (l : list Z) : list Z :=
  match l with
  | [] => []
  | x :: t =>
      match t with
      | [] => [x]
      | y :: _ => if x =? y then drop_repeats t else x :: drop_repeats t
      end
  end.

(** [np.unique(ar)]: the sorted distinct values of [ar]. *)
Definition unique (ar : list Z) : list Z := drop_repeats (sort ar).

End Np.

(** ** Genome codec *)

(** [get_genome_sequence(code, padding)] *)
Definition get_genome_sequence (code padding : Z) : res (list Z) :=
  res_map Py.int_of_char (list_ascii_of_string (Np.binary_repr code padding)).

(** [get_genome_value(genome)] *)
Definition get_genome_value (genome : list Z) : res Z :=
  Py.int_0b (Py.join (map Py.str genome)).

(** ** Problem instance and fitness *)

Record Knapsack : Type := mkKnapsack {
  n : Z;
  weights : list Z;
  values : list Z;
  capacity : Z
}.

(** A fitness value: an integer profit or [np.NINF]. *)
Inductive fit : Type :=
| NINF
| Profit (v : Z).

(** [a < b] on fitness values. *)
Definition fit_ltb (a b : fit) : bool :=
  match a, b with
  | NINF, NINF => false
  | NINF, Profit _ => true
  | Profit _, NINF => false
  | Profit x, Profit y => x <? y
  end.

(** [a <= b] on fitness values. *)
Definition fit_leb (a b : fit) : bool := negb (fit_ltb b a).

(** [fitness_func(code, knapsack_obj)] *)
Definition fitness_func (code : Z) (knapsack_obj : Knapsack) : res fit :=
  genome <- get_genome_sequence code (n knapsack_obj) ;;
  load <- Np.dot genome (weights knapsack_obj) ;;
  if load <=? capacity knapsack_obj then
    profit <- Np.dot genome (values knapsack_obj) ;;
    Ok (Profit profit)
  else Ok NINF.

(** ** Bits of a genome *)

(** The character of a binary digit. *)
Definition bit_char (b : bool) : ascii := if b then "1"%char else "0"%char.

(** The binary digits of a positive number, least significant first. *)
Fixpoint lsb_bits (p : positive) : list bool :=
  match p with
  | xH => [true]
  | xO q => false :: lsb_bits q
  | xI q => true :: lsb_bits q
  end.

(** The [w]-bit selection vector of [code]: entry [i] is bit [w - 1 - i] of
    [code], so the most significant bit comes first. *)
Definition msb_first_bits (code : Z) (w : nat) : list Z :=
  rev (map (fun i => Z.b2z (Z.testbit code (Z.of_nat i))) (seq 0 w)).

(** The value of the binary digits read so far, with one more digit. *)
Definition shift (a : Z) (b : bool) : Z := 2 * a + Z.b2z b.

(** The number of binary digits of a non-negative [code] ([0] has one). *)
Definition bits_needed (code : Z) : Z := Z.log2 code + 1.


(** A problem instance as the data model has it: a positive item count and
    two vectors of that length. *)
Definition well_formed (k : Knapsack) : Prop :=
  1 <= n k /\
  Z.of_nat (List.length (weights k)) = n k /\
  Z.of_nat (List.length (values k)) = n k.

(** A number that a 64-bit signed integer can hold. *)
Definition in_int64 (z : Z) : Prop := - 2 ^ 63 <= z < 2 ^ 63.

(** The vectors of the instance are arrays of 64-bit integers, as
    [to_numpy] makes them. *)
Definition int64_entries (k : Knapsack) : Prop :=
  Forall in_int64 (weights k) /\ Forall in_int64 (values k).

(** The selection that a genome stands for in an instance, and its load and
    profit. *)
Definition selection_of (k : Knapsack) (code : Z) : list Z :=
  msb_first_bits code (Z.to_nat (n k)).

Definition total_weight (k : Knapsack) (code : Z) : Z :=
  Np.dot_sum (selection_of k code) (weights k).

Definition total_value (k : Knapsack) (code : Z) : Z :=
  Np.dot_sum (selection_of k code) (values k).




(** Decoding to a width cuts the code down to its [w] low-order bits. *)
Definition decode_truncates (code w : Z) : Prop :=
  exists genome,
    get_genome_sequence code w = Ok genome /\
    List.length genome = Z.to_nat w /\
    genome = msb_first_bits code (Z.to_nat w).

(** The instance of the end-to-end scenario: four items, capacity 5. *)
Definition scenario : Knapsack :=
  mkKnapsack 4 [2; 3; 4; 5] [3; 4; 5; 6] 5.

(** ** The island driver *)

(** The inherited operators that a run invokes, in the order of the calls. *)
Inductive event : Type :=
| InitPopulation
| Selection
| Crossover
| Mutation.

(** The base class [GeneticAlgorithm]: the attributes set by the constructor
    and the operators the island variant inherits.  Each operator draws from
    the random generator, whose state has type [rng].  The operators and the
    fitness closure are taken to return a value: a run in which one of them
    raises ends with that exception and is not followed here. *)
Class GeneticAlgorithm (rng : Type) : Type := {
  cycle : Z;
  genome_size : Z;
  self_fitness_func : Z -> fit;
  init_population : rng -> list Z * rng;
  selection : list Z -> Q -> rng -> list Z * rng;
  crossover : list Z -> rng -> list Z * rng;
  mutation : list Z -> rng -> list Z * rng
}.

(** The state of a run: the random generator and the operators called so
    far. *)
Record state (rng : Type) : Type := mkState {
  random : rng;
  trace : list event
}.

Arguments mkState {rng} random trace.
Arguments random {rng} s.
Arguments trace {rng} s.

(** The outcome of a computation from a state: a value, an exception, or a
    loop cut off by the bound on its iterations. *)
Inductive outcome (S A : Type) : Type :=
| Return (a : A) (s : S)
| Throw (e : exn) (s : S)
| OutOfFuel.

Arguments Return {S A} a s.
Arguments Throw {S A} e s.
Arguments OutOfFuel {S A}.

Definition M (rng A : Type) : Type := state rng -> outcome (state rng) A.

Definition ret {rng A : Type} (a : A) : M rng A := fun s => Return a s.

Definition throw {rng A : Type} (e : exn) : M rng A := fun s => Throw e s.

Definition bind {rng A B : Type} (m : M rng A) (k : A -> M rng B) : M rng B :=
  fun s =>
    match m s with
    | Return a s' => k a s'
    | Throw e s' => Throw e s'
    | OutOfFuel => OutOfFuel
    end.

Definition lift {rng A : Type} (r : res A) : M rng A :=
  match r with
  | Ok a => ret a
  | Raise e => throw e
  end.

Notation "x <~ m ;; k" := (bind m (fun x => k))
  (at level 61, m at next level, right associativity).

(** A call of an inherited operator: it advances the random generator and is
    recorded in the trace. *)
Definition call {rng A : Type} (ev : event) (op : rng -> A * rng) : M rng A :=
  fun s =>
    let (a, g) := op (random s) in
    Return a (mkState g (trace s ++ [ev])).

Section Driver.

Context {rng : Type} {GA : GeneticAlgorithm rng}.

(** [crossover_mutation(self, population)] *)
Definition crossover_mutation (population : list Z) : M rng (list Z) :=
  population <~ call Crossover (crossover population) ;;
  population <~ call Mutation (mutation population) ;;
  ret population.

(** The [k] island tasks of one generation, all on the same survivors; the
    results are listed in the order in which they are collected.  The tasks
    are run one after the other: in the code they are threads of a pool, and
    the calls of different islands may interleave.  What is stated of a
    generation below depends neither on the order of the calls nor on the
    states in which the generator is found. *)
Fixpoint islands (k : nat) (population : list Z) : M rng (list (list Z)) :=
  match k with
  | O => ret []
  | S k' =>
      result <~ crossover_mutation population ;;
      results <~ islands k' population ;;
      ret (result :: results)
  end.

(** The population stacked from the island results, duplicates removed. *)
Definition merge (results : list (list Z)) : list Z :=
  Np.unique (fold_left Np.hstack results []).

(** [selection_percentage * len(population) <= 1], on the exact product: the
    code rounds the product to a float, which gives the same answer unless
    the exact product lies above 1 by less than the rounding error. *)
Definition degenerate (selection_percentage : Q) (population : list Z)
    : bool :=
  Qle_bool
    (selection_percentage * inject_Z (Z.of_nat (List.length population))) 1.

(** [max(l, key=lambda g: self.fitness_func(g))] *)
Definition fittest (l : list Z) : res Z :=
  Py.max_key fit_ltb self_fitness_func l.

(** One generation: selection, the islands, the merge. *)
Definition generation (selection_percentage : Q) (k_parallel : Z)
    (population : list Z) : M rng (list Z) :=
  population <~ call Selection (selection population selection_percentage) ;;
  results <~ islands (Z.to_nat k_parallel) population ;;
  ret (merge results).

(** The [while len(population) > 1] loop of one cycle; [fuel] bounds the
    number of times the loop condition is tested. *)
Fixpoint evolving (fuel : nat) (selection_percentage : Q) (k_parallel : Z)
    (population : list Z) : M rng (list Z) :=
  match fuel with
  | O => fun _ => OutOfFuel
  | S fuel' =>
      if (1 <? List.length population)%nat then
        if degenerate selection_percentage population then
          best <~ lift (fittest population) ;;
          ret [best]
        else
          population <~ generation selection_percentage k_parallel
                          population ;;
          evolving fuel' selection_percentage k_parallel population
      else ret population
  end.

(** [population[0]] *)
Definition first (population : list Z) : res Z :=
  match population with
  | [] => Raise IndexError
  | g :: _ => Ok g
  end.

(** One cycle: a fresh population is evolved and its first genome is the
    winner of the cycle. *)
Definition one_cycle (fuel : nat) (selection_percentage : Q)
    (k_parallel : Z) : M rng Z :=
  population <~ call InitPopulation init_population ;;
  population <~ evolving fuel selection_percentage k_parallel population ;;
  lift (first population).

(** The [for _ in range(self.cycle)] loop, [count] cycles remaining. *)
Fixpoint cycles (fuel : nat) (selection_percentage : Q) (k_parallel : Z)
    (count : nat) (winner_genomes : list Z) : M rng (list Z) :=
  match count with
  | O => ret winner_genomes
  | S count' =>
      winner <~ one_cycle fuel selection_percentage k_parallel ;;
      cycles fuel selection_percentage k_parallel count'
        (winner_genomes ++ [winner])
  end.

(** [driver(self, selection_percentage, k_parallel)] *)
Definition driver (fuel : nat) (selection_percentage : Q) (k_parallel : Z)
    : M rng Z :=
  winner_genomes <~
    cycles fuel selection_percentage k_parallel (Z.to_nat cycle) [] ;;
  lift (fittest winner_genomes).

End Driver.

(** ** The outputs of the islands *)

Section IslandOutputs.

Context {rng : Type} {GA : GeneticAlgorithm rng}.



End IslandOutputs.

(** ** Statements about a configuration *)

Section Configuration.

Context {rng : Type} {GA : GeneticAlgorithm rng}.

(** A configuration without a configuration error, for an instance [k]. *)
Definition valid_configuration (k : Knapsack) (selection_percentage : Q)
    (k_parallel : Z) : Prop :=
  genome_size = n k /\
  (0 < selection_percentage /\ selection_percentage <= 1)%Q /\
  1 <= k_parallel /\
  1 <= cycle.


(** From every population the loop of a cycle comes to an end. *)
Definition evolving_terminates (selection_percentage : Q) (k_parallel : Z)
    : Prop :=
  forall population s, exists fuel,
    evolving fuel selection_percentage k_parallel population s
    <> OutOfFuel.

(** Every generation that the loop runs leaves fewer genomes than it
    started from. *)
Definition generations_shrink (selection_percentage : Q) (k_parallel : Z)
    : Prop :=
  forall population s population' s',
    (1 < List.length population)%nat ->
    degenerate selection_percentage population = false ->
    generation selection_percentage k_parallel population s
    = Return population' s' ->
    (List.length population' < List.length population)%nat.

End Configuration.

(** ** An instance of the inherited operators *)

Module Reference.

(** [g] put into a list ranked by descending fitness, before the entries
    that are not fitter. *)
Fixpoint insert_ranked (f : Z -> fit) (g : Z) (l : list Z) : list Z :=
  match l with
  | [] => [g]
  | h :: t =>
      if fit_ltb (f g) (f h) then h :: insert_ranked f g t else g :: l
  end.

Definition rank (f : Z -> fit) (l : list Z) : list Z :=
  fold_right (insert_ranked f) [] l.

(** [max(1, ceil(percentage * size))] *)
Definition retained (percentage : Q) (size : nat) : nat :=
  Z.to_nat (Z.max 1 (Qceiling (percentage * inject_Z (Z.of_nat size)))).

(** Modelled from the spec: the selection operator of the base class, which
    ranks the genomes by descending fitness, ties in their original order,
    and retains the top [ceil(percentage * population_size)] genomes, at
    least one. *)
Definition select (f : Z -> fit) (population : list Z) (percentage : Q)
    : list Z :=
  firstn (retained percentage (List.length population)) (rank f population).

(** The fitness closure over an instance, for the runs below, whose genomes
    all lie in the range of the instance; outside of it [fitness_func]
    raises, and the closure is given the lowest rank instead. *)
Definition fitness_of (k : Knapsack) (g : Z) : fit :=
  match fitness_func g k with
  | Ok f => f
  | Raise _ => NINF
  end.

(** Modelled from the spec: one possible run of the operators of the base
    class.  Every cycle starts from the population [seed]; selection is the
    one above; uniform crossover takes every bit of an offspring from the
    same parent, so that the offspring are the parents; bit-flip mutation
    flips no bit. *)
Definition ga (cycles : Z) (k : Knapsack) (seed : list Z)
    : GeneticAlgorithm unit := {|
  cycle := cycles;
  genome_size := n k;
  self_fitness_func := fitness_of k;
  init_population := fun r => (seed, r);
  selection := fun population percentage r =>
    (select (fitness_of k) population percentage, r);
  crossover := fun population r => (population, r);
  mutation := fun population r => (population, r)
|}.

Definition start : state unit := mkState tt [].

End Reference.

(** ** The instance generator *)

Module Generator.

(** [np.cumsum(l)] on an array of 64-bit integers, [acc] being the sum of
    the entries already passed. *)
Fixpoint cumsum_from (acc : Z) (l : list Z) : list Z :=
  match l with
  | [] => []
  | x :: t => Np.int64 (acc + x) :: cumsum_from (Np.int64 (acc + x)) t
  end.

Definition cumsum (l : list Z) : list Z := cumsum_from 0 l.

(** [a += b] for one-dimensional arrays of 64-bit integers: the shapes must
    agree, and the sums wrap around. *)
Definition add (a b : list Z) : res (list Z) :=
  if Nat.eqb (List.length a) (List.length b)
  then Ok (map (fun p => Np.int64 (fst p + snd p)) (combine a b))
  else Raise ValueError.

(** [l[i:]]: a negative [i] counts from the end and is cut off at the
    start of the list. *)
Definition slice_from (l : list Z) (i : Z) : list Z :=
  if i <? 0 then skipn (Z.to_nat (Z.max (Z.of_nat (List.length l) + i) 0)) l
  else skipn (Z.to_nat i) l.

(** [choice(l)], [j] being the index that the random generator draws. *)
Definition choice (j : nat) (l : list Z) : res Z :=
  match nth_error l j with
  | Some x => Ok x
  | None => Raise IndexError
  end.

(** [int(-0.1 * n)]: for an item count [0 <= n < 2^49] the float product
    rounds to a number with the integer part of [-n/10], so the conversion
    gives [-(n quot 10)]. *)
Definition minus_tenth (n : Z) : Z := - (n ÷ 10).

(** The checks of [randint(low=1, high=upper_seed, size=n)]: a negative
    size is refused, an empty array is returned without looking at the
    bounds, and otherwise [high] must exceed [low] and fit a 64-bit
    integer. *)
Definition randint_refuses (n upper_seed : Z) : bool :=
  (n <? 0)
  || ((0 <? n) && ((upper_seed <=? 1) || (2 ^ 63 <? upper_seed))).

(** [Knapsack.__init__(n, upper_seed)] without a file name.  The draws of
    the random generators are given: [steps] is the array of
    [randint(1, upper_seed, n)], [loads] is the integer array that
    [cumsum(values * rand(n)).astype(int)] evaluates to, and [j] is the
    index drawn by [choice]. *)
Definition init (n upper_seed : Z) (steps loads : list Z) (j : nat)
    : res Knapsack :=
  if randint_refuses n upper_seed then Raise ValueError
  else
    let values := cumsum steps in
    let weights := loads in
    values <- add values weights ;;
    top <- choice j (slice_from weights (minus_tenth n)) ;;
    Ok (mkKnapsack n weights values (Np.int64 (3 * top))).

(** The exact sum of a list. *)
Definition total (l : list Z) : Z := fold_right Z.add 0 l.

End Generator.

(** ** The calls of a run *)

Definition event_eq_dec (a b : event) : {a = b} + {a <> b}.
Proof. decide equality. Defined.

(** The number of calls of an operator in a trace. *)
Definition occurrences (ev : event) (t : list event) : nat :=
  count_occ event_eq_dec t ev.

(** The operator calls of one generation with [k] islands, as the model
    lists them: a selection, then island after island a crossover followed
    by a mutation.  In the code the calls of different islands may
    interleave; only their numbers are meant. *)
Definition generation_trace (k : nat) : list event :=
  Selection :: List.concat (repeat [Crossover; Mutation] k).

(** The operator calls of a cycle that runs [g] generations. *)
Definition cycle_trace (k g : nat) : list event :=
  InitPopulation :: List.concat (repeat (generation_trace k) g).

(** The operator calls of a run whose cycles run [gens] generations. *)
Definition run_trace (k : nat) (gens : list nat) : list event :=
  List.concat (map (cycle_trace k) gens).

(** * Properties *)

(** The docstring examples of the codec. *)
Example get_genome_sequence_7_2 : get_genome_sequence 7 2 = Ok [1; 1; 1].
Proof. reflexivity. Qed.

Example get_genome_sequence_7_3 : get_genome_sequence 7 3 = Ok [1; 1; 1].
Proof. reflexivity. Qed.

Example get_genome_sequence_7_4 : get_genome_sequence 7 4 = Ok [0; 1; 1; 1].
Proof. reflexivity. Qed.

Example get_genome_sequence_7_5 : get_genome_sequence 7 5 = Ok [0; 0; 1; 1; 1].
Proof. reflexivity. Qed.

Example get_genome_value_110 : get_genome_value [1; 1; 0] = Ok 6.
Proof. reflexivity. Qed.

Example get_genome_value_00100 : get_genome_value [0; 0; 1; 0; 0] = Ok 4.
Proof. reflexivity. Qed.

(** The entries are joined as decimal numerals before the string is read in
    base 2. *)
Example get_genome_value_10_1 : get_genome_value [10; 1] = Ok 5.
Proof. reflexivity. Qed.

Example get_genome_value_2 : get_genome_value [2] = Raise ValueError.
Proof. reflexivity. Qed.

Example get_genome_value_empty : get_genome_value [] = Raise ValueError.
Proof. reflexivity. Qed.

Example binary_repr_neg3_5 : Np.binary_repr (-3) 5 = "11101"%string.
Proof. reflexivity. Qed.

Example binary_repr_neg3_3 : Np.binary_repr (-3) 3 = "101"%string.
Proof. reflexivity. Qed.

Example msb_first_bits_6_4 : msb_first_bits 6 4 = [0; 1; 1; 0].
Proof. reflexivity. Qed.

Section BitLemmas.

Lemma chars_append (s t : string) :
  list_ascii_of_string (s ++ t) =
  list_ascii_of_string s ++ list_ascii_of_string t.
Proof.
  induction s as [|c s IH]; simpl; [reflexivity | now rewrite IH].
Qed.

Lemma chars_bin_pos (p : positive) : forall acc,
  list_ascii_of_string (Py.bin_pos p acc) =
  map bit_char (rev (lsb_bits p)) ++ list_ascii_of_string acc.
Proof.
  induction p as [q IH | q IH |]; intros acc; simpl.
  - rewrite IH, map_app, <- app_assoc. reflexivity.
  - rewrite IH, map_app, <- app_assoc. reflexivity.
  - reflexivity.
Qed.

Lemma chars_str_mul (b : bool) (k : Z) :
  list_ascii_of_string (Py.str_mul (bit_char b) k) =
  map bit_char (repeat b (Z.to_nat k)).
Proof.
  unfold Py.str_mul.
  rewrite list_ascii_of_string_of_list_ascii, map_repeat. reflexivity.
Qed.

Lemma length_chars (s : string) :
  List.length (list_ascii_of_string s) = String.length s.
Proof.
  induction s as [|c s IH]; simpl; [reflexivity | now rewrite IH].
Qed.

Lemma len_bin_pos (p : positive) :
  Py.len (Py.bin_pos p "") = Z.of_nat (List.length (lsb_bits p)).
Proof.
  unfold Py.len. f_equal.
  rewrite <- (length_chars (Py.bin_pos p "")), chars_bin_pos. simpl.
  now rewrite app_nil_r, length_map, length_rev.
Qed.

Lemma int_of_bit_chars (bs : list bool) :
  res_map Py.int_of_char (map bit_char bs) = Ok (map Z.b2z bs).
Proof.
  induction bs as [|b bs IH]; simpl; [reflexivity |].
  rewrite IH. destruct b; reflexivity.
Qed.

Lemma length_lsb_bits (p : positive) :
  Z.of_nat (List.length (lsb_bits p)) = bits_needed (Zpos p).
Proof.
  unfold bits_needed.
  induction p as [q IH | q IH |]; simpl List.length.
  - rewrite Pos2Z.inj_xI, Z.log2_succ_double by lia. lia.
  - rewrite Pos2Z.inj_xO, Z.log2_double by lia. lia.
  - reflexivity.
Qed.

Lemma lsb_bits_testbit (p : positive) :
  lsb_bits p =
  map (fun i => Z.testbit (Zpos p) (Z.of_nat i))
      (seq 0 (List.length (lsb_bits p))).
Proof.
  induction p as [q IH | q IH |]; cbn [lsb_bits List.length seq map].
  - rewrite <- seq_shift, map_map. f_equal.
    rewrite IH at 1. apply map_ext. intros i.
    rewrite Nat2Z.inj_succ, Pos2Z.inj_xI, Z.testbit_odd_succ by lia.
    reflexivity.
  - rewrite <- seq_shift, map_map. f_equal.
    rewrite IH at 1. apply map_ext. intros i.
    rewrite Nat2Z.inj_succ, Pos2Z.inj_xO, Z.testbit_even_succ by lia.
    reflexivity.
  - reflexivity.
Qed.

Lemma testbit_high (p : positive) (i : nat) :
  (List.length (lsb_bits p) <= i)%nat ->
  Z.testbit (Zpos p) (Z.of_nat i) = false.
Proof.
  intros H. apply Z.bits_above_log2; [lia |].
  pose proof (length_lsb_bits p) as L. unfold bits_needed in L. lia.
Qed.

End BitLemmas.

(** ** The codec *)

Section Codec.

(** What [get_genome_sequence] returns for a positive code, whatever the
    width. *)
Lemma get_genome_sequence_pos (p : positive) (w : Z) :
  get_genome_sequence (Zpos p) w =
  Ok (map Z.b2z
        (repeat false (Z.to_nat (w - bits_needed (Zpos p)))
         ++ rev (lsb_bits p))).
Proof.
  unfold get_genome_sequence, Np.binary_repr, Py.zfill, Py.bin_tail.
  rewrite chars_append, (chars_str_mul false), chars_bin_pos.
  simpl list_ascii_of_string. rewrite app_nil_r, <- map_app.
  rewrite int_of_bit_chars, len_bin_pos, length_lsb_bits.
  do 4 f_equal. lia.
Qed.

Lemma get_genome_sequence_zero (w : Z) :
  get_genome_sequence 0 w =
  Ok (repeat 0 (Z.to_nat (if w =? 0 then 1 else w))).
Proof.
  unfold get_genome_sequence, Np.binary_repr.
  rewrite (chars_str_mul false), int_of_bit_chars, map_repeat.
  reflexivity.
Qed.

Lemma msb_first_bits_zero (m : nat) : msb_first_bits 0 m = repeat 0 m.
Proof.
  unfold msb_first_bits.
  rewrite (map_ext _ (fun _ => 0)) by (intros; now rewrite Z.testbit_0_l).
  rewrite map_const, length_seq. apply rev_repeat.
Qed.

Lemma msb_first_bits_pos (p : positive) (k : nat) :
  msb_first_bits (Zpos p) (List.length (lsb_bits p) + k) =
  map Z.b2z (repeat false k ++ rev (lsb_bits p)).
Proof.
  unfold msb_first_bits.
  rewrite seq_app, map_app, rev_app_distr, map_app. simpl seq. f_equal.
  - rewrite (map_ext_in _ (fun _ => 0)).
    + now rewrite map_const, length_seq, rev_repeat, map_repeat.
    + intros i Hi. apply in_seq in Hi.
      rewrite testbit_high by lia. reflexivity.
  - rewrite map_rev. f_equal.
    rewrite (lsb_bits_testbit p) at 2. now rewrite map_map.
Qed.

(** In range, decoding yields the fixed-width selection vector. *)
Lemma get_genome_sequence_in_range (code w : Z) :
  1 <= w -> 0 <= code <= 2 ^ w - 1 ->
  get_genome_sequence code w = Ok (msb_first_bits code (Z.to_nat w)).
Proof.
  intros Hw Hc. destruct code as [|p|p]; [| |lia].
  - rewrite get_genome_sequence_zero, msb_first_bits_zero.
    destruct (Z.eqb_spec w 0); [lia | reflexivity].
  - rewrite get_genome_sequence_pos.
    assert (L : bits_needed (Zpos p) <= w).
    { unfold bits_needed.
      assert (Z.log2 (Zpos p) < w) by (apply Z.log2_lt_pow2; lia). lia. }
    pose proof (length_lsb_bits p) as E.
    replace (Z.to_nat w)
      with (List.length (lsb_bits p)
            + Z.to_nat (w - bits_needed (Zpos p)))%nat by lia.
    now rewrite msb_first_bits_pos.
Qed.

Lemma length_msb_first_bits (code : Z) (m : nat) :
  List.length (msb_first_bits code m) = m.
Proof.
  unfold msb_first_bits. now rewrite length_rev, length_map, length_seq.
Qed.

Lemma msb_first_bits_binary (code : Z) (m : nat) :
  Forall (fun b => b = 0 \/ b = 1) (msb_first_bits code m).
Proof.
  unfold msb_first_bits. apply Forall_rev, Forall_map, Forall_forall.
  intros i _. destruct (Z.testbit code (Z.of_nat i)); simpl; auto.
Qed.

End Codec.

Section Encode.

Lemma join_str_bits (bs : list bool) :
  Py.join (map Py.str (map Z.b2z bs)) =
  string_of_list_ascii (map bit_char bs).
Proof.
  induction bs as [|b bs IH]; simpl; [reflexivity |].
  rewrite IH. destruct b; reflexivity.
Qed.

Lemma bin_value_bits (bs : list bool) : forall acc,
  Py.bin_value (string_of_list_ascii (map bit_char bs)) acc =
  Ok (fold_left shift bs acc).
Proof.
  induction bs as [|b bs IH]; intros acc; simpl; [reflexivity |].
  destruct b; simpl; rewrite IH; unfold shift; simpl; do 2 f_equal; lia.
Qed.

Lemma value_zeros (k : nat) : fold_left shift (repeat false k) 0 = 0.
Proof. induction k as [|k IH]; simpl; [reflexivity | exact IH]. Qed.

Lemma value_lsb_bits (p : positive) :
  fold_left shift (rev (lsb_bits p)) 0 = Zpos p.
Proof.
  induction p as [q IH | q IH |]; simpl; [| | reflexivity];
    rewrite fold_left_app, IH; unfold shift; simpl; lia.
Qed.

Lemma get_genome_value_bits (bs : list bool) :
  bs <> [] ->
  get_genome_value (map Z.b2z bs) = Ok (fold_left shift bs 0).
Proof.
  intros H. unfold get_genome_value. rewrite join_str_bits.
  destruct bs as [|b bs]; [congruence |].
  rewrite <- bin_value_bits. destruct b; reflexivity.
Qed.

(** Encoding what was decoded gives the code back, for every non-negative
    code and every non-negative width. *)
Lemma get_genome_value_sequence (code w : Z) :
  0 <= code -> 0 <= w ->
  (genome <- get_genome_sequence code w ;; get_genome_value genome)
  = Ok code.
Proof.
  intros Hc Hw. destruct code as [|p|p]; [| |lia].
  - rewrite get_genome_sequence_zero. simpl.
    assert (R : forall m, repeat 0 m = map Z.b2z (repeat false m))
      by (intros; now rewrite map_repeat).
    rewrite R, get_genome_value_bits.
    + now rewrite value_zeros.
    + destruct (Z.eqb_spec w 0); [discriminate |].
      destruct (Z.to_nat w) eqn:E; [lia | discriminate].
  - rewrite get_genome_sequence_pos. simpl.
    rewrite get_genome_value_bits.
    + now rewrite fold_left_app, value_zeros, value_lsb_bits.
    + intros E. apply app_eq_nil in E. destruct E as [_ E].
      apply (f_equal (@List.length bool)) in E.
      rewrite length_rev in E. pose proof (length_lsb_bits p).
      unfold bits_needed in *. pose proof (Z.log2_nonneg (Zpos p)).
      simpl in E. lia.
Qed.

End Encode.

Lemma dot_sum_zeros (m : nat) (l : list Z) : Np.dot_sum (repeat 0 m) l = 0.
Proof.
  revert l. induction m as [|m IH]; intros [|x l]; simpl; auto.
Qed.

Lemma dot_same_length (a b : list Z) :
  List.length a = List.length b ->
  Np.dot a b = Ok (Np.int64 (Np.dot_sum a b)).
Proof. intros H. unfold Np.dot. now rewrite H, Nat.eqb_refl. Qed.

Lemma int64_exact (z : Z) : in_int64 z -> Np.int64 z = z.
Proof.
  unfold in_int64, Np.int64. intros H.
  rewrite Z.mod_small by lia. lia.
Qed.

Lemma int64_in_range (z : Z) : in_int64 (Np.int64 z).
Proof.
  unfold in_int64, Np.int64.
  pose proof (Z.mod_pos_bound (z + 2 ^ 63) (2 ^ 64) ltac:(lia)). lia.
Qed.

(** The fitness of an in-range genome, in terms of its selection: both dot
    products are taken in 64-bit arithmetic. *)
Lemma fitness_func_in_range (k : Knapsack) (code : Z) :
  well_formed k -> 0 <= code <= 2 ^ n k - 1 ->
  fitness_func code k =
  Ok (if Np.int64 (total_weight k code) <=? capacity k
      then Profit (Np.int64 (total_value k code)) else NINF).
Proof.
  intros (Hn & Hw & Hv) Hc. unfold fitness_func.
  rewrite get_genome_sequence_in_range by assumption. cbn [res_bind].
  rewrite dot_same_length by (rewrite length_msb_first_bits; lia).
  cbn [res_bind].
  unfold total_weight, total_value, selection_of.
  destruct (_ <=? _); [| reflexivity].
  rewrite dot_same_length by (rewrite length_msb_first_bits; lia).
  reflexivity.
Qed.

(** When the exact sums fit in 64 bits, the fitness is the rule on the exact
    dot products. *)
Lemma fitness_func_exact (k : Knapsack) (code : Z) :
  well_formed k -> 0 <= code <= 2 ^ n k - 1 ->
  in_int64 (total_weight k code) -> in_int64 (total_value k code) ->
  fitness_func code k =
  Ok (if total_weight k code <=? capacity k
      then Profit (total_value k code) else NINF).
Proof.
  intros W Hc Iw Iv.
  rewrite fitness_func_in_range by assumption.
  now rewrite !int64_exact by assumption.
Qed.

Lemma well_formed_scenario : well_formed scenario.
Proof. repeat split; simpl; lia. Qed.

(** ** Claims on the codec and the fitness *)




(** C2.  For [n >= 1] and [code] in [[0, 2^n - 1]], encoding the decoded
    selection returns [code]; hence decoding, encoding and decoding again is
    the same as decoding once. *)
Theorem encode_decode_round_trip (code w : Z) :
  1 <= w -> 0 <= code <= 2 ^ w - 1 ->
  (genome <- get_genome_sequence code w ;; get_genome_value genome)
  = Ok code /\
  (genome <- get_genome_sequence code w ;;
   code' <- get_genome_value genome ;;
   get_genome_sequence code' w)
  = get_genome_sequence code w.
Proof.
  intros Hw Hc.
  assert (E : (genome <- get_genome_sequence code w ;;
               get_genome_value genome) = Ok code)
    by (apply get_genome_value_sequence; lia).
  split; [exact E |].
  destruct (get_genome_sequence code w) as [genome | e] eqn:D;
    simpl in *; [| discriminate].
  rewrite E. simpl. exact D.
Qed.

Lemma encode_decode_round_trip_witness :
  (genome <- get_genome_sequence 5 4 ;; get_genome_value genome) = Ok 5 /\
  (genome <- get_genome_sequence 5 4 ;;
   code' <- get_genome_value genome ;;
   get_genome_sequence code' 4)
  = get_genome_sequence 5 4.
Proof. apply (encode_decode_round_trip 5 4); simpl; lia. Defined.

(** C3, as stated, fails: with a width smaller than the number of bits of the
    code nothing is cut off.  Code 7 at width 2 decodes to three entries. *)
Lemma decode_truncates_fails :
  0 <= 7 /\ 0 <= 2 < bits_needed 7 /\ ~ decode_truncates 7 2.
Proof.
  split; [lia |]. split; [vm_compute; split; [discriminate | reflexivity] |].
  intros (genome & D & L & _).
  change (get_genome_sequence 7 2) with (Ok [1; 1; 1]) in D.
  injection D as <-. discriminate L.
Qed.

(** C3, amended.  For a non-negative [code] and a width [w] smaller than the
    number of bits of [code], [get_genome_sequence] raises no exception and
    returns the whole binary representation of [code]: a 0/1 sequence whose
    length is the number of bits of [code], and whose last [w] entries are
    the [w] low-order bits of [code]. *)
Theorem decode_narrow_width (code w : Z) :
  0 <= code -> 0 <= w < bits_needed code ->
  exists genome,
    get_genome_sequence code w = Ok genome /\
    genome = msb_first_bits code (Z.to_nat (bits_needed code)) /\
    Z.of_nat (List.length genome) = bits_needed code /\
    Forall (fun b => b = 0 \/ b = 1) genome /\
    skipn (List.length genome - Z.to_nat w) genome
    = msb_first_bits code (Z.to_nat w).
Proof.
  intros Hc Hw.
  assert (B : 1 <= bits_needed code)
    by (unfold bits_needed; pose proof (Z.log2_nonneg code); lia).
  exists (msb_first_bits code (Z.to_nat (bits_needed code))).
  split; [| split; [reflexivity | split; [| split]]].
  - destruct code as [|p|p]; [| |lia].
    + rewrite get_genome_sequence_zero, msb_first_bits_zero.
      change (bits_needed 0) with 1 in *.
      replace w with 0 by lia. reflexivity.
    + rewrite get_genome_sequence_pos.
      pose proof (length_lsb_bits p) as E.
      replace (Z.to_nat (bits_needed (Zpos p)))
        with (List.length (lsb_bits p) + 0)%nat by lia.
      rewrite msb_first_bits_pos.
      replace (Z.to_nat (w - bits_needed (Zpos p))) with 0%nat by lia.
      reflexivity.
  - rewrite length_msb_first_bits. lia.
  - apply msb_first_bits_binary.
  - rewrite length_msb_first_bits. unfold msb_first_bits.
    replace (Z.to_nat (bits_needed code))
      with (Z.to_nat w + (Z.to_nat (bits_needed code) - Z.to_nat w))%nat
      at 2 by lia.
    rewrite seq_app, map_app, rev_app_distr, skipn_app.
    rewrite skipn_all2
      by (rewrite length_rev, length_map, length_seq; lia).
    rewrite length_rev, length_map, length_seq, Nat.sub_diag.
    reflexivity.
Qed.

Lemma decode_narrow_width_witness :
  exists genome,
    get_genome_sequence 7 2 = Ok genome /\
    genome = msb_first_bits 7 (Z.to_nat (bits_needed 7)) /\
    Z.of_nat (List.length genome) = bits_needed 7 /\
    Forall (fun b => b = 0 \/ b = 1) genome /\
    skipn (List.length genome - Z.to_nat 2) genome
    = msb_first_bits 7 (Z.to_nat 2).
Proof.
  apply (decode_narrow_width 7 2); [lia |].
  vm_compute. split; [discriminate | reflexivity].
Defined.




(** C10.  In an instance with a non-negative capacity (whatever the weights,
    so in particular for non-negative ones) the genome 0 lies in the search
    space and is feasible: its fitness is the profit 0, not negative
    infinity. *)
Theorem empty_selection_feasible (k : Knapsack) :
  well_formed k -> Forall (fun x => 0 <= x) (weights k) -> 0 <= capacity k ->
  0 <= 0 <= 2 ^ n k - 1 /\
  fitness_func 0 k = Ok (Profit 0) /\
  fitness_func 0 k <> Ok NINF.
Proof.
  intros W _ Hcap.
  assert (R : 0 <= 0 <= 2 ^ n k - 1).
  { destruct W as (Hn & _).
    assert (0 < 2 ^ n k) by (apply Z.pow_pos_nonneg; lia). lia. }
  assert (F : fitness_func 0 k = Ok (Profit 0)).
  { rewrite fitness_func_in_range by assumption.
    unfold total_weight, total_value, selection_of.
    rewrite msb_first_bits_zero, !dot_sum_zeros.
    change (Np.int64 0) with 0.
    destruct (Z.leb_spec 0 (capacity k)); [reflexivity | lia]. }
  split; [exact R |]. split; [exact F |]. rewrite F. discriminate.
Qed.

Lemma empty_selection_feasible_witness :
  0 <= 0 <= 2 ^ n scenario - 1 /\
  fitness_func 0 scenario = Ok (Profit 0) /\
  fitness_func 0 scenario <> Ok NINF.
Proof.
  apply (empty_selection_feasible scenario).
  - repeat split; simpl; lia.
  - repeat constructor; lia.
  - simpl; lia.
Defined.

Example fitness_func_no_item :
  fitness_func 0 (mkKnapsack 0 [] [] 0) = Raise ValueError.
Proof. reflexivity. Qed.

(** ** The duplicate removal *)

Section Unique.

Lemma In_insert (x y : Z) (l : list Z) :
  In y (Np.insert x l) <-> y = x \/ In y l.
Proof.
  induction l as [|h t IH]; simpl.
  - intuition.
  - destruct (x <=? h); simpl; [intuition | rewrite IH; intuition].
Qed.

Lemma In_sort (y : Z) (l : list Z) : In y (Np.sort l) <-> In y l.
Proof.
  induction l as [|h t IH]; simpl; [reflexivity |].
  rewrite In_insert, IH. intuition.
Qed.

Lemma insert_sorted (x : Z) (l : list Z) :
  StronglySorted Z.le l -> StronglySorted Z.le (Np.insert x l).
Proof.
  induction 1 as [|h t S IH F]; simpl.
  - repeat constructor.
  - destruct (Z.leb_spec x h).
    + constructor; [now constructor |].
      constructor; [assumption |].
      eapply Forall_impl; [| exact F]. simpl. intros; lia.
    + constructor; [assumption |].
      apply Forall_forall. intros y Hy. apply In_insert in Hy.
      destruct Hy as [-> | Hy]; [lia |].
      rewrite Forall_forall in F. now apply F.
Qed.

Lemma sort_sorted (l : list Z) : StronglySorted Z.le (Np.sort l).
Proof.
  induction l as [|h t IH]; simpl; [constructor | now apply insert_sorted].
Qed.

Lemma In_drop_repeats (y : Z) (l : list Z) :
  In y (Np.drop_repeats l) <-> In y l.
Proof.
  induction l as [|h t IH]; [reflexivity |].
  destruct t as [|h' t'].
  - reflexivity.
  - change (Np.drop_repeats (h :: h' :: t'))
      with (if h =? h' then Np.drop_repeats (h' :: t')
            else h :: Np.drop_repeats (h' :: t')).
    destruct (Z.eqb_spec h h') as [-> | N].
    + rewrite IH. simpl. intuition.
    + simpl In at 1. rewrite IH. simpl. intuition.
Qed.

Lemma drop_repeats_sorted (l : list Z) :
  StronglySorted Z.le l -> StronglySorted Z.lt (Np.drop_repeats l).
Proof.
  induction 1 as [|h t S IH F]; [constructor |].
  destruct t as [|h' t'].
  - repeat constructor.
  - change (Np.drop_repeats (h :: h' :: t'))
      with (if h =? h' then Np.drop_repeats (h' :: t')
            else h :: Np.drop_repeats (h' :: t')).
    destruct (Z.eqb_spec h h') as [E | N]; [assumption |].
    constructor; [assumption |].
    apply Forall_forall. intros y Hy.
    apply (proj1 (In_drop_repeats _ _)) in Hy.
    rewrite Forall_forall in F. pose proof (F y Hy) as Ly.
    destruct Hy as [<- | Hy]; [lia |].
    inversion S as [| ? ? _ F' ]; subst.
    rewrite Forall_forall in F'. pose proof (F' y Hy).
    pose proof (F h' (or_introl eq_refl)). lia.
Qed.


Lemma unique_increasing (l : list Z) : StronglySorted Z.lt (Np.unique l).
Proof. apply drop_repeats_sorted, sort_sorted. Qed.

Lemma In_unique (y : Z) (l : list Z) : In y (Np.unique l) <-> In y l.
Proof. unfold Np.unique. now rewrite In_drop_repeats, In_sort. Qed.

Lemma hstack_all (results : list (list Z)) : forall acc,
  fold_left Np.hstack results acc = acc ++ List.concat results.
Proof.
  induction results as [|r rs IH]; intros acc; simpl.
  - now rewrite app_nil_r.
  - rewrite IH. unfold Np.hstack. now rewrite app_assoc.
Qed.



End Unique.

(** ** The order on fitness values and [max] *)

Ltac fit_order :=
  unfold fit_leb in *;
  repeat match goal with
         | f : fit |- _ => destruct f
         end;
  simpl in *; try congruence;
  repeat match goal with
         | H : negb _ = true |- _ => apply negb_true_iff in H
         | H : negb _ = false |- _ => apply negb_false_iff in H
         | |- negb _ = true => apply negb_true_iff
         | |- negb _ = false => apply negb_false_iff
         end;
  try congruence; lia.

Lemma fit_leb_refl (a : fit) : fit_leb a a = true.
Proof. fit_order. Qed.

Lemma fit_leb_trans (a b c : fit) :
  fit_leb a b = true -> fit_leb b c = true -> fit_leb a c = true.
Proof. intros H1 H2. fit_order. Qed.

Lemma fit_ltb_leb (a b : fit) : fit_ltb a b = true -> fit_leb a b = true.
Proof. intros H. fit_order. Qed.

Lemma fit_nltb_leb (a b : fit) : fit_ltb a b = false -> fit_leb b a = true.
Proof. intros H. unfold fit_leb. now rewrite H. Qed.

Section Max.

Variable key : Z -> fit.

Lemma max_from_In (l : list Z) : forall best,
  In (Py.max_from fit_ltb key best l) (best :: l).
Proof.
  induction l as [|x t IH]; intros best; simpl; [now left |].
  destruct (fit_ltb (key best) (key x)).
  - right. apply IH.
  - destruct (IH best) as [E | H]; [now left | now right; right].
Qed.

Lemma max_from_above_best (l : list Z) : forall best,
  fit_leb (key best) (key (Py.max_from fit_ltb key best l)) = true.
Proof.
  induction l as [|x t IH]; intros best; simpl; [apply fit_leb_refl |].
  destruct (fit_ltb (key best) (key x)) eqn:E; [| apply IH].
  eapply fit_leb_trans; [apply fit_ltb_leb, E | apply IH].
Qed.

Lemma max_from_greatest (l : list Z) : forall best x,
  In x (best :: l) ->
  fit_leb (key x) (key (Py.max_from fit_ltb key best l)) = true.
Proof.
  induction l as [|y t IH]; intros best x Hx; simpl.
  - destruct Hx as [<- | []]. apply fit_leb_refl.
  - destruct (fit_ltb (key best) (key y)) eqn:E.
    + destruct Hx as [<- | Hx]; [| now apply IH].
      eapply fit_leb_trans; [apply fit_ltb_leb, E |].
      apply max_from_above_best.
    + destruct Hx as [<- | [<- | Hx]].
      * apply max_from_above_best.
      * eapply fit_leb_trans; [apply fit_nltb_leb, E |].
        apply max_from_above_best.
      * apply IH. now right.
Qed.

(** [max] over a non-empty list returns an entry no other entry exceeds. *)
Lemma max_key_greatest (l : list Z) :
  l <> [] ->
  exists g,
    Py.max_key fit_ltb key l = Ok g /\ In g l /\
    forall x, In x l -> fit_leb (key x) (key g) = true.
Proof.
  destruct l as [|b t]; [congruence |]. intros _.
  exists (Py.max_from fit_ltb key b t). split; [reflexivity |].
  split; [apply max_from_In | intros x; apply max_from_greatest].
Qed.

End Max.

(** ** The driver *)

Section DriverProperties.

Context {rng : Type} {GA : GeneticAlgorithm rng}.

Lemma fittest_greatest (l : list Z) :
  l <> [] ->
  exists g,
    fittest l = Ok g /\ In g l /\
    forall x, In x l ->
      fit_leb (self_fitness_func x) (self_fitness_func g) = true.
Proof. apply max_key_greatest. Qed.

Lemma crossover_mutation_returns (population : list Z) (s : state rng) :
  exists result s',
    crossover_mutation population s = Return result s' /\
    trace s' = trace s ++ [Crossover; Mutation].
Proof.
  unfold crossover_mutation, bind, call, ret.
  destruct (crossover population (random s)) as [p1 g1]. simpl.
  destruct (mutation p1 g1) as [p2 g2]. simpl.
  eexists _, _. split; [reflexivity |]. simpl.
  now rewrite <- app_assoc.
Qed.

Lemma islands_returns (k : nat) (population : list Z) :
  forall s, exists results s',
    islands k population s = Return results s' /\
    List.length results = k /\
    trace s' = trace s ++ List.concat (repeat [Crossover; Mutation] k).
Proof.
  induction k as [|k IH]; intros s; simpl.
  - exists [], s. now rewrite app_nil_r.
  - unfold bind at 1.
    destruct (crossover_mutation_returns population s)
      as (r & s1 & -> & T1).
    unfold bind at 1. destruct (IH s1) as (rs & s2 & -> & L & T2).
    exists (r :: rs), s2. split; [reflexivity |]. split; [simpl; lia |].
    rewrite T2, T1, <- app_assoc. reflexivity.
Qed.

(** A generation always completes: it calls selection, then every island,
    and returns the merge of the island results. *)
Lemma generation_returns (selection_percentage : Q) (k_parallel : Z)
    (population : list Z) (s : state rng) :
  exists results s',
    generation selection_percentage k_parallel population s
    = Return (merge results) s' /\
    List.length results = Z.to_nat k_parallel /\
    trace s' =
    trace s ++ Selection
      :: List.concat (repeat [Crossover; Mutation] (Z.to_nat k_parallel)).
Proof.
  unfold generation, bind at 1, call.
  destruct (selection population selection_percentage (random s))
    as [survivors g].
  unfold bind.
  destruct (islands_returns (Z.to_nat k_parallel) survivors
              (mkState g (trace s ++ [Selection])))
    as (rs & s2 & -> & L & T).
  exists rs, s2. split; [reflexivity |]. split; [exact L |].
  rewrite T. simpl. now rewrite <- app_assoc.
Qed.

Lemma evolving_step (fuel : nat) (selection_percentage : Q)
    (k_parallel : Z) (population : list Z) (s : state rng) :
  evolving (S fuel) selection_percentage k_parallel population s =
  if (1 <? List.length population)%nat then
    if degenerate selection_percentage population then
      (best <~ lift (fittest population) ;; ret [best]) s
    else
      (population <~ generation selection_percentage k_parallel
                       population ;;
       evolving fuel selection_percentage k_parallel population) s
  else ret population s.
Proof.
  simpl. destruct (1 <? List.length population)%nat; [| reflexivity].
  destruct (degenerate selection_percentage population); reflexivity.
Qed.

(** When the guard holds the loop ends at once with the fittest genome. *)
Lemma evolving_degenerate (fuel : nat) (selection_percentage : Q)
    (k_parallel : Z) (population : list Z) (s : state rng) :
  (1 < List.length population)%nat ->
  degenerate selection_percentage population = true ->
  exists g,
    evolving (S fuel) selection_percentage k_parallel population s
    = Return [g] s /\
    In g population /\
    forall x, In x population ->
      fit_leb (self_fitness_func x) (self_fitness_func g) = true.
Proof.
  intros L D. rewrite evolving_step, D.
  apply Nat.ltb_lt in L. rewrite L.
  destruct (fittest_greatest population) as (g & E & I & B).
  { intros ->. discriminate L. }
  exists g. unfold bind. rewrite E. now split.
Qed.

Lemma evolving_small (fuel : nat) (selection_percentage : Q)
    (k_parallel : Z) (population : list Z) (s : state rng) :
  (List.length population <= 1)%nat ->
  evolving (S fuel) selection_percentage k_parallel population s
  = Return population s.
Proof.
  intros L. rewrite evolving_step.
  apply Nat.ltb_ge in L. now rewrite L.
Qed.


End DriverProperties.

(** ** Claims on the merge and on the final choice *)

Section MergeAndFinalize.

Context {rng : Type} {GA : GeneticAlgorithm rng}.

Lemma In_merge (results : list (list Z)) (g : Z) :
  In g (merge results) <-> In g (List.concat results).
Proof. unfold merge. now rewrite In_unique, hstack_all. Qed.








(** Conversely, whatever the driver returns was chosen that way. *)
Lemma driver_result_is_fittest_winner (fuel : nat)
    (selection_percentage : Q) (k_parallel : Z) (s : state rng)
    (g : Z) (s' : state rng) :
  driver fuel selection_percentage k_parallel s = Return g s' ->
  exists winner_genomes,
    cycles fuel selection_percentage k_parallel (Z.to_nat cycle) [] s
    = Return winner_genomes s' /\
    In g winner_genomes /\
    forall w, In w winner_genomes ->
      fit_leb (self_fitness_func w) (self_fitness_func g) = true.
Proof.
  unfold driver, bind. intros E.
  destruct (cycles fuel selection_percentage k_parallel
              (Z.to_nat cycle) [] s) as [ws s1 | e s1 |];
    try discriminate.
  destruct ws as [|w0 ws]; [discriminate |].
  destruct (fittest_greatest (w0 :: ws)) as (g' & F & I & B);
    [discriminate |].
  rewrite F in E. injection E as <- <-. now exists (w0 :: ws).
Qed.

End MergeAndFinalize.


(** ** Claims on the loop of a cycle *)

Section Cycle.

Context {rng : Type} {GA : GeneticAlgorithm rng}.


(** The loop ends as soon as the fuel exceeds the size of the population,
    provided every generation shrinks the population. *)
Lemma evolving_returns (selection_percentage : Q) (k_parallel : Z) :
  generations_shrink selection_percentage k_parallel ->
  forall fuel population s,
    (List.length population < fuel)%nat ->
    exists population' s',
      evolving fuel selection_percentage k_parallel population s
      = Return population' s' /\
      (List.length population' <= 1)%nat.
Proof.
  intros Shrink. induction fuel as [|fuel IH]; intros population s L;
    [lia |].
  destruct (Nat.ltb_spec 1 (List.length population)) as [C | C].
  - destruct (degenerate selection_percentage population) eqn:D.
    + destruct (evolving_degenerate fuel selection_percentage k_parallel
                  population s C D) as (g & E & _).
      exists [g], s. split; [exact E | simpl; lia].
    + rewrite evolving_step, D.
      pose proof (proj2 (Nat.ltb_lt _ _) C) as C'. rewrite C'.
      unfold bind.
      destruct (generation_returns selection_percentage k_parallel
                  population s) as (rs & s1 & G & _).
      rewrite G. apply IH.
      pose proof (Shrink population s (merge rs) s1 C D G). lia.
  - exists population, s. split; [now apply evolving_small | exact C].
Qed.

(** C9, amended.  If every generation that the loop runs returns fewer
    genomes than it started from, the loop of a cycle terminates: from a
    population [P] it ends within [|P| + 1] tests of its condition, with at
    most one genome left. *)
Theorem evolving_terminates_if_shrinking (selection_percentage : Q)
    (k_parallel : Z) :
  generations_shrink selection_percentage k_parallel ->
  forall population s,
    exists population' s',
      evolving (S (List.length population)) selection_percentage
        k_parallel population s
      = Return population' s' /\
      (List.length population' <= 1)%nat.
Proof.
  intros Shrink population s.
  apply evolving_returns; [exact Shrink | lia].
Qed.

End Cycle.


(** ** Runs that keep the survivors *)

(** The loop cannot end when the whole population is selected and the
    offspring returned by crossover and mutation include the parents, which
    is what the docstring of [crossover_mutation] announces. *)
Section SurvivorsKept.

Context {rng : Type} {GA : GeneticAlgorithm rng}.

Hypothesis selection_keeps :
  forall population r, incl population (fst (selection population 1 r)).
Hypothesis crossover_keeps :
  forall population r, incl population (fst (crossover population r)).
Hypothesis mutation_keeps :
  forall population r, incl population (fst (mutation population r)).

Lemma crossover_mutation_keeps (population : list Z) (s : state rng) :
  exists result s',
    crossover_mutation population s = Return result s' /\
    incl population result.
Proof.
  unfold crossover_mutation, bind, call, ret.
  pose proof (crossover_keeps population (random s)) as C.
  destruct (crossover population (random s)) as [p1 g1]. simpl in *.
  pose proof (mutation_keeps p1 g1) as U.
  destruct (mutation p1 g1) as [p2 g2]. simpl in *.
  eexists _, _. split; [reflexivity |].
  eapply incl_tran; eassumption.
Qed.

Lemma islands_keep (k : nat) (population : list Z) :
  forall s, exists results s',
    islands k population s = Return results s' /\
    List.length results = k /\
    Forall (incl population) results.
Proof.
  induction k as [|k IH]; intros s; simpl.
  - exists [], s. repeat split. constructor.
  - unfold bind at 1.
    destruct (crossover_mutation_keeps population s) as (r & s1 & -> & I).
    unfold bind at 1. destruct (IH s1) as (rs & s2 & -> & L & F).
    exists (r :: rs), s2. split; [reflexivity |].
    split; [simpl; lia | now constructor].
Qed.

Lemma generation_keeps (k_parallel : Z) (population : list Z)
    (s : state rng) :
  1 <= k_parallel ->
  exists population' s',
    generation 1 k_parallel population s = Return population' s' /\
    incl population population'.
Proof.
  intros K. unfold generation, bind at 1, call.
  pose proof (selection_keeps population (random s)) as Sel.
  destruct (selection population 1 (random s)) as [survivors g].
  simpl in Sel. unfold bind.
  destruct (islands_keep (Z.to_nat k_parallel) survivors
              (mkState g (trace s ++ [Selection])))
    as (rs & s2 & -> & L & F).
  exists (merge rs), s2. split; [reflexivity |].
  destruct rs as [|r rs]; [simpl in L; lia |].
  inversion F as [| ? ? Hr _]; subst.
  intros x Hx. apply In_merge. simpl. apply in_or_app. left.
  apply Hr, Sel, Hx.
Qed.

Lemma two_genomes_length (a b : Z) (population : list Z) :
  a <> b -> In a population -> In b population ->
  (1 < List.length population)%nat.
Proof.
  intros N Ha Hb. destruct population as [|x [|y t]]; simpl in *;
    [contradiction | | lia].
  destruct Ha as [<- | []], Hb as [<- | []]. congruence.
Qed.

Lemma whole_population_not_degenerate (population : list Z) :
  (1 < List.length population)%nat -> degenerate 1 population = false.
Proof.
  intros L. destruct (degenerate 1 population) eqn:D; [| reflexivity].
  apply Qle_bool_iff in D.
  unfold Qle, Qmult, inject_Z in D. cbn [Qnum Qden] in D. lia.
Qed.

Lemma evolving_never_ends (k_parallel : Z) (a b : Z) :
  1 <= k_parallel -> a <> b ->
  forall fuel population s,
    In a population -> In b population ->
    evolving fuel 1 k_parallel population s = OutOfFuel.
Proof.
  intros K N. induction fuel as [|fuel IH]; intros population s Ha Hb;
    [reflexivity |].
  pose proof (two_genomes_length a b population N Ha Hb) as L.
  rewrite evolving_step, whole_population_not_degenerate by exact L.
  apply Nat.ltb_lt in L. rewrite L. unfold bind.
  destruct (generation_keeps k_parallel population s K)
    as (p' & s' & -> & I).
  apply IH; apply I; assumption.
Qed.

End SurvivorsKept.

(** ** The reference operators *)

Section ReferenceRuns.

Lemma length_insert (x : Z) (l : list Z) :
  List.length (Np.insert x l) = S (List.length l).
Proof.
  induction l as [|h t IH]; simpl; [reflexivity |].
  destruct (x <=? h); simpl; [reflexivity | now rewrite IH].
Qed.

Lemma length_sort (l : list Z) : List.length (Np.sort l) = List.length l.
Proof.
  induction l as [|h t IH]; simpl; [reflexivity |].
  now rewrite length_insert, IH.
Qed.

Lemma length_drop_repeats (l : list Z) :
  (List.length (Np.drop_repeats l) <= List.length l)%nat.
Proof.
  induction l as [|h t IH]; [simpl; lia |].
  destruct t as [|h' t']; [simpl; lia |].
  change (Np.drop_repeats (h :: h' :: t'))
    with (if h =? h' then Np.drop_repeats (h' :: t')
          else h :: Np.drop_repeats (h' :: t')).
  destruct (h =? h'); simpl List.length in *; lia.
Qed.

Lemma length_unique (l : list Z) :
  (List.length (Np.unique l) <= List.length l)%nat.
Proof.
  unfold Np.unique. rewrite <- (length_sort l).
  apply length_drop_repeats.
Qed.

Lemma retained_half (m : nat) :
  (2 <= m)%nat -> (Reference.retained (1 # 2) m < m)%nat.
Proof.
  intros H.
  unfold Reference.retained, Qceiling, Qfloor, Qopp, Qmult, inject_Z.
  cbn [Qnum Qden]. rewrite Z.mul_1_l. change (Z.pos (2 * 1)) with 2.
  Z.to_euclidean_division_equations. lia.
Qed.

(** With one island and half of the population selected, a generation of
    the reference operators returns fewer genomes than it was given. *)
Lemma reference_generations_shrink (k : Knapsack) (seed : list Z) :
  generations_shrink (GA := Reference.ga 1 k seed) (1 # 2) 1.
Proof.
  intros population s population' s' L _ G.
  unfold generation, bind, call, ret in G. simpl in G.
  injection G as <- _. unfold merge. simpl fold_left.
  eapply Nat.le_lt_trans; [apply length_unique |].
  unfold Np.hstack, Reference.select. simpl app.
  eapply Nat.le_lt_trans; [apply firstn_le_length |].
  apply retained_half. lia.
Qed.

(** With the whole population selected and operators that return what they
    were given, the two genomes 0 and 1 are bred again and again. *)
Lemma reference_runs_forever (fuel : nat) : forall s,
  evolving (GA := Reference.ga 1 scenario [0; 1]) fuel 1 1 [0; 1] s
  = OutOfFuel.
Proof.
  induction fuel as [|fuel IH]; intros s; [reflexivity |].
  rewrite evolving_step.
  change (1 <? List.length [0; 1])%nat with true.
  change (degenerate 1 [0; 1]) with false.
  cbv beta iota. unfold bind at 1.
  change (generation (GA := Reference.ga 1 scenario [0; 1]) 1 1 [0; 1] s)
    with (Return (S := state unit) [0; 1]
            (mkState (random s)
               (((trace s ++ [Selection]) ++ [Crossover])
                ++ [Mutation]))).
  apply IH.
Qed.

End ReferenceRuns.

(** C9, as stated, fails: a valid configuration does not make the loop
    terminate.  With selection fraction 1, one island, and operators that
    return the genomes they were given, the population [[0; 1]] never
    changes. *)
Lemma valid_configuration_may_not_terminate :
  valid_configuration (GA := Reference.ga 1 scenario [0; 1]) scenario 1 1 /\
  ~ evolving_terminates (GA := Reference.ga 1 scenario [0; 1]) 1 1.
Proof.
  split.
  - repeat split; try reflexivity; simpl; try lia; discriminate.
  - intros T. destruct (T [0; 1] Reference.start) as [fuel E].
    apply E, reference_runs_forever.
Qed.

Lemma evolving_terminates_if_shrinking_witness :
  exists population' s',
    evolving (GA := Reference.ga 1 scenario [3; 12; 5; 10])
      (S (List.length [3; 12; 5; 10])) (1 # 2) 1 [3; 12; 5; 10]
      Reference.start
    = Return population' s' /\
    (List.length population' <= 1)%nat.
Proof.
  apply (evolving_terminates_if_shrinking
           (GA := Reference.ga 1 scenario [3; 12; 5; 10]) (1 # 2) 1
           (reference_generations_shrink scenario [3; 12; 5; 10])
           [3; 12; 5; 10] Reference.start).
Defined.

(** ** Claims on the configuration *)

Section NoValidation.

Context {rng : Type} {GA : GeneticAlgorithm rng}.





End NoValidation.



(** * Further properties of the codec *)

Section CodecWidths.

(** The value of binary digits listed least significant first. *)
Lemma lsb_value_testbit (l : list bool) :
  map (fun i => Z.testbit (fold_right (fun b a => shift a b) 0 l)
                  (Z.of_nat i))
      (seq 0 (List.length l)) = l.
Proof.
  induction l as [|b l IH]; [reflexivity |].
  cbn [List.length seq map fold_right]. unfold shift at 1.
  f_equal.
  - apply Z.testbit_0_r.
  - rewrite <- seq_shift, map_map. rewrite <- IH at 2.
    apply map_ext. intros i. unfold shift at 1.
    rewrite Nat2Z.inj_succ. apply Z.testbit_succ_r. lia.
Qed.

Lemma value_rev (bs : list bool) :
  fold_left shift bs 0 = fold_right (fun b a => shift a b) 0 (rev bs).
Proof. now rewrite fold_left_rev_right. Qed.

Lemma value_range (bs : list bool) :
  0 <= fold_left shift bs 0 < 2 ^ Z.of_nat (List.length bs).
Proof.
  rewrite value_rev, <- (length_rev bs).
  induction (rev bs) as [|b l IH]; [simpl; lia |].
  cbn [fold_right List.length]. rewrite Nat2Z.inj_succ, Z.pow_succ_r by lia.
  unfold shift at 1 3. destruct b; simpl Z.b2z; lia.
Qed.

Lemma msb_first_bits_value (bs : list bool) :
  msb_first_bits (fold_left shift bs 0) (List.length bs) = map Z.b2z bs.
Proof.
  unfold msb_first_bits.
  rewrite <- (map_map (fun i => Z.testbit (fold_left shift bs 0) (Z.of_nat i))
                Z.b2z).
  rewrite value_rev, <- (length_rev bs), lsb_value_testbit.
  now rewrite <- map_rev, rev_involutive.
Qed.

Lemma binary_bools (g : list Z) :
  Forall (fun b => b = 0 \/ b = 1) g -> exists bs, g = map Z.b2z bs.
Proof.
  induction 1 as [|x g [-> | ->] _ (bs & ->)].
  - now exists [].
  - now exists (false :: bs).
  - now exists (true :: bs).
Qed.

End CodecWidths.

Lemma get_genome_sequence_nonneg (code w : Z) :
  0 <= code -> 0 <= w ->
  get_genome_sequence code w
  = Ok (msb_first_bits code (Z.to_nat (Z.max (bits_needed code) w))).
Proof.
  intros Hc Hw. destruct code as [|p|p]; [| |lia].
  - rewrite get_genome_sequence_zero, msb_first_bits_zero.
    change (bits_needed 0) with 1.
    destruct (Z.eqb_spec w 0) as [-> | N]; [reflexivity |].
    do 2 f_equal. lia.
  - rewrite get_genome_sequence_pos.
    pose proof (length_lsb_bits p) as E.
    replace (Z.to_nat (Z.max (bits_needed (Zpos p)) w))
      with (List.length (lsb_bits p)
            + Z.to_nat (w - bits_needed (Zpos p)))%nat by lia.
    now rewrite msb_first_bits_pos.
Qed.

(** X1.  For a non-negative code and a non-negative width,
    [get_genome_sequence] raises no exception and returns the bits of the
    code, most significant first, on as many entries as the larger of the
    width and the number of bits of the code: it pads with zeros on the left
    and never cuts. *)
Theorem get_genome_sequence_width (code w : Z) :
  0 <= code -> 0 <= w ->
  exists genome,
    get_genome_sequence code w = Ok genome /\
    genome = msb_first_bits code (Z.to_nat (Z.max (bits_needed code) w)) /\
    Z.of_nat (List.length genome) = Z.max (bits_needed code) w /\
    Forall (fun b => b = 0 \/ b = 1) genome.
Proof.
  intros Hc Hw. eexists. split; [now apply get_genome_sequence_nonneg |].
  split; [reflexivity |]. split.
  - rewrite length_msb_first_bits. unfold bits_needed.
    pose proof (Z.log2_nonneg code). lia.
  - apply msb_first_bits_binary.
Qed.

Lemma get_genome_sequence_width_witness :
  exists genome,
    get_genome_sequence 5 2 = Ok genome /\
    genome = msb_first_bits 5 (Z.to_nat (Z.max (bits_needed 5) 2)) /\
    Z.of_nat (List.length genome) = Z.max (bits_needed 5) 2 /\
    Forall (fun b => b = 0 \/ b = 1) genome.
Proof. apply (get_genome_sequence_width 5 2); lia. Defined.

(** X2.  Leading zeros do not change the value of a genome: for a non-empty
    genome [g], [get_genome_value] gives the same result, value or error, on
    [g] and on [g] with any number of zeros in front. *)
Theorem get_genome_value_leading_zeros (k : nat) (genome : list Z) :
  genome <> [] ->
  get_genome_value (repeat 0 k ++ genome) = get_genome_value genome.
Proof.
  intros H. induction k as [|k IH]; [reflexivity |].
  rewrite <- IH. unfold get_genome_value, Py.join.
  cbn [repeat app map fold_right].
  change (Py.str 0) with (String "0" EmptyString).
  cbn [String.append].
  set (s := fold_right String.append EmptyString
              (map Py.str (repeat 0 k ++ genome))).
  assert (N : s <> EmptyString).
  { subst s. destruct (repeat 0 k ++ genome) as [|x t] eqn:E.
    - apply app_eq_nil in E. destruct E as [_ E]. congruence.
    - cbn [map fold_right]. unfold Py.str.
      destruct x as [|q|q]; cbn; try discriminate;
        unfold NilZero.string_of_uint;
        destruct (Pos.to_uint q); discriminate. }
  destruct s; [congruence | reflexivity].
Qed.

Lemma get_genome_value_leading_zeros_witness :
  get_genome_value (repeat 0 2 ++ [1; 0; 0]) = get_genome_value [1; 0; 0].
Proof.
  apply (get_genome_value_leading_zeros 2 [1; 0; 0]). discriminate.
Defined.

(** X3.  Encoding is inverted by decoding at the length of the genome: for a
    non-empty genome [g] of zeros and ones, [get_genome_value] returns a code
    in [[0, 2^len(g) - 1]] and [get_genome_sequence] of that code at width
    [len(g)] returns [g]. *)
Theorem decode_encode_round_trip (genome : list Z) :
  genome <> [] -> Forall (fun b => b = 0 \/ b = 1) genome ->
  exists code,
    get_genome_value genome = Ok code /\
    0 <= code <= 2 ^ Z.of_nat (List.length genome) - 1 /\
    get_genome_sequence code (Z.of_nat (List.length genome)) = Ok genome.
Proof.
  intros N B. destruct (binary_bools genome B) as (bs & ->).
  assert (Nb : bs <> []) by (intros ->; now apply N).
  exists (fold_left shift bs 0).
  pose proof (value_range bs) as R. rewrite length_map.
  split; [now apply get_genome_value_bits |]. split; [lia |].
  rewrite get_genome_sequence_in_range.
  - now rewrite Nat2Z.id, msb_first_bits_value.
  - destruct bs; [congruence | simpl List.length; lia].
  - lia.
Qed.

Lemma decode_encode_round_trip_witness :
  exists code,
    get_genome_value [0; 1; 1; 0] = Ok code /\
    0 <= code <= 2 ^ Z.of_nat (List.length [0; 1; 1; 0]) - 1 /\
    get_genome_sequence code (Z.of_nat (List.length [0; 1; 1; 0]))
    = Ok [0; 1; 1; 0].
Proof.
  apply (decode_encode_round_trip [0; 1; 1; 0]).
  - discriminate.
  - repeat (apply Forall_cons; [solve [auto] |]). apply Forall_nil.
Defined.

(** X4.  Decoding loses nothing: two non-negative codes that decode to the
    same sequence at the same width are equal. *)
Theorem get_genome_sequence_injective (a b w : Z) :
  0 <= a -> 0 <= b -> 0 <= w ->
  get_genome_sequence a w = get_genome_sequence b w -> a = b.
Proof.
  intros Ha Hb Hw E.
  pose proof (get_genome_value_sequence a w Ha Hw) as Va.
  pose proof (get_genome_value_sequence b w Hb Hw) as Vb.
  rewrite E, Vb in Va. now injection Va.
Qed.

Lemma get_genome_sequence_injective_witness : 6 = 6.
Proof.
  apply (get_genome_sequence_injective 6 6 4); try lia. reflexivity.
Defined.

(** * Further properties of the fitness *)

Section FitnessOrder.

Lemma msb_first_bits_S (code : Z) (m : nat) :
  msb_first_bits code (S m) =
  Z.b2z (Z.testbit code (Z.of_nat m)) :: msb_first_bits code m.
Proof.
  unfold msb_first_bits. now rewrite seq_S, map_app, rev_app_distr.
Qed.

Lemma msb_first_bits_le (a b : Z) (m : nat) :
  (forall i, Z.testbit a i = true -> Z.testbit b i = true) ->
  Forall2 (fun x y => 0 <= x <= y) (msb_first_bits a m) (msb_first_bits b m).
Proof.
  intros H. induction m as [|m IH]; [constructor |].
  rewrite !msb_first_bits_S. constructor; [| exact IH].
  specialize (H (Z.of_nat m)).
  destruct (Z.testbit a (Z.of_nat m)); simpl.
  - rewrite H by reflexivity. simpl. lia.
  - destruct (Z.testbit b (Z.of_nat m)); simpl; lia.
Qed.

Lemma dot_sum_le (x y : list Z) :
  Forall2 (fun u v => 0 <= u <= v) x y ->
  forall w, Forall (fun c => 0 <= c) w ->
  0 <= Np.dot_sum x w <= Np.dot_sum y w.
Proof.
  induction 1 as [|u v x y Huv _ IH]; intros w Hw; [simpl; lia |].
  destruct w as [|c w]; [simpl; lia |].
  inversion Hw as [| ? ? Hc Hw']; subst. specialize (IH w Hw').
  simpl. nia.
Qed.

Lemma land_subset (a b : Z) :
  Z.land a b = a -> forall i, Z.testbit a i = true -> Z.testbit b i = true.
Proof.
  intros E i H. rewrite <- E, Z.land_spec in H.
  now apply andb_true_iff in H.
Qed.

End FitnessOrder.

(** X5.  A genome that lies beyond the range of the instance cannot be
    evaluated: for [code >= 2^n] the decoded sequence has more than [n]
    entries and [fitness_func] raises [ValueError] from the dot product. *)
Theorem fitness_func_out_of_range (k : Knapsack) (code : Z) :
  well_formed k -> 2 ^ n k <= code ->
  fitness_func code k = Raise ValueError.
Proof.
  intros (Hn & Hw & _) Hc.
  assert (P : 0 < 2 ^ n k) by (apply Z.pow_pos_nonneg; lia).
  assert (L : n k <= Z.log2 code) by (apply Z.log2_le_pow2; lia).
  unfold fitness_func.
  rewrite get_genome_sequence_nonneg by lia. simpl res_bind.
  unfold Np.dot. rewrite length_msb_first_bits.
  destruct (Nat.eqb_spec (Z.to_nat (Z.max (bits_needed code) (n k)))
              (List.length (weights k))) as [E | _]; [| reflexivity].
  unfold bits_needed in E. lia.
Qed.

Lemma fitness_func_out_of_range_witness :
  fitness_func 16 scenario = Raise ValueError.
Proof.
  apply (fitness_func_out_of_range scenario 16).
  - repeat split; simpl; lia.
  - simpl. lia.
Defined.

(** X6.  With non-negative 64-bit weights and values, feasibility is
    inherited by sub-selections: when every item that genome [a] selects is
    also selected by genome [b] (bitwise, [a & b = a]), the exact load and
    value of [b] fit in 64 bits and [b] has a profit, then [a] has a profit
    too, which is non-negative and at most the profit of [b]. *)
Theorem feasible_sub_selection (k : Knapsack) (a b vb : Z) :
  well_formed k -> int64_entries k ->
  Forall (fun c => 0 <= c) (weights k) ->
  Forall (fun c => 0 <= c) (values k) ->
  0 <= a <= 2 ^ n k - 1 -> 0 <= b <= 2 ^ n k - 1 ->
  in_int64 (total_weight k b) -> in_int64 (total_value k b) ->
  Z.land a b = a ->
  fitness_func b k = Ok (Profit vb) ->
  exists va, fitness_func a k = Ok (Profit va) /\ 0 <= va <= vb.
Proof.
  intros W _ Hw Hv Ha Hb Iw Iv S F.
  pose proof (msb_first_bits_le a b (Z.to_nat (n k)) (land_subset a b S))
    as B.
  pose proof (dot_sum_le _ _ B _ Hw) as Lw.
  pose proof (dot_sum_le _ _ B _ Hv) as Lv.
  fold (selection_of k a) (selection_of k b) in Lw, Lv.
  fold (total_weight k a) (total_weight k b) in Lw.
  fold (total_value k a) (total_value k b) in Lv.
  assert (Iwa : in_int64 (total_weight k a))
    by (unfold in_int64 in *; lia).
  assert (Iva : in_int64 (total_value k a))
    by (unfold in_int64 in *; lia).
  rewrite fitness_func_exact in F by assumption.
  rewrite fitness_func_exact by assumption.
  destruct (Z.leb_spec (total_weight k b) (capacity k)); [| discriminate].
  injection F as <-.
  destruct (Z.leb_spec (total_weight k a) (capacity k)); [| lia].
  now exists (total_value k a).
Qed.

Lemma feasible_sub_selection_witness :
  exists va, fitness_func 8 scenario = Ok (Profit va) /\ 0 <= va <= 7.
Proof.
  apply (feasible_sub_selection scenario 8 12 7).
  - repeat split; simpl; lia.
  - split; repeat (apply Forall_cons; [unfold in_int64; lia |]);
      apply Forall_nil.
  - repeat (apply Forall_cons; [lia |]). apply Forall_nil.
  - repeat (apply Forall_cons; [lia |]). apply Forall_nil.
  - simpl; lia.
  - simpl; lia.
  - split; [vm_compute; discriminate | vm_compute; reflexivity].
  - split; [vm_compute; discriminate | vm_compute; reflexivity].
  - reflexivity.
  - reflexivity.
Defined.

(** * Further properties of the driver *)

Section Ties.

Variable key : Z -> fit.

Lemma fit_ltb_leb_trans (a b c : fit) :
  fit_ltb a b = true -> fit_leb b c = true -> fit_ltb a c = true.
Proof. intros H1 H2. fit_order. Qed.

Lemma fit_leb_ltb_trans (a b c : fit) :
  fit_leb a b = true -> fit_ltb b c = true -> fit_ltb a c = true.
Proof. intros H1 H2. fit_order. Qed.

Lemma fit_ltb_not_leb (a b : fit) :
  fit_ltb a b = true -> fit_leb b a = true -> False.
Proof. intros H1 H2. fit_order. Qed.

(** [max] keeps the first of the entries with the greatest key. *)
Lemma max_from_first (l : list Z) : forall best,
  exists l1 l2,
    best :: l = l1 ++ Py.max_from fit_ltb key best l :: l2 /\
    Forall (fun x => fit_ltb (key x)
                       (key (Py.max_from fit_ltb key best l)) = true) l1 /\
    Forall (fun x => fit_leb (key x)
                       (key (Py.max_from fit_ltb key best l)) = true) l2.
Proof.
  induction l as [|x t IH]; intros best; simpl.
  - exists [], []. repeat split; constructor.
  - destruct (fit_ltb (key best) (key x)) eqn:E.
    + destruct (IH x) as (l1 & l2 & D & F1 & F2).
      exists (best :: l1), l2. rewrite D. split; [reflexivity |].
      split; [| exact F2]. constructor; [| exact F1].
      eapply fit_ltb_leb_trans; [exact E | apply max_from_above_best].
    + destruct (IH best) as (l1 & l2 & D & F1 & F2).
      apply fit_nltb_leb in E.
      remember (Py.max_from fit_ltb key best t) as g eqn:G. clear G IH.
      destruct l1 as [|b l1]; simpl in D; injection D as D1 D2; subst.
      * exists [], (x :: l2). split; [reflexivity |].
        split; constructor; assumption.
      * exists (b :: x :: l1), l2. split; [reflexivity |].
        split; [| exact F2].
        inversion F1 as [| ? ? Hb F1']; subst.
        constructor; [exact Hb |]. constructor; [| exact F1'].
        eapply fit_leb_ltb_trans; [exact E | exact Hb].
Qed.

End Ties.

Lemma increasing_after (l1 l2 : list Z) (g x : Z) :
  StronglySorted Z.lt (l1 ++ g :: l2) -> In x l2 -> g < x.
Proof.
  induction l1 as [|a l1 IH]; simpl; intros S Hx.
  - inversion S as [| ? ? _ F]; subst.
    rewrite Forall_forall in F. now apply F.
  - inversion S; subst. now apply IH.
Qed.

Section DriverRuns.

Context {rng : Type} {GA : GeneticAlgorithm rng}.

(** X7.  Ties are broken by position: the genome that [max] picks, at the
    guard and at the end of the driver, comes after genomes that are all
    strictly less fit and before genomes that are at most as fit.  In a
    population in ascending order, as left by a merge, it is therefore the
    smallest of the fittest genomes. *)
Theorem fittest_is_first_of_ties (l : list Z) :
  l <> [] ->
  exists g l1 l2,
    fittest l = Ok g /\
    l = l1 ++ g :: l2 /\
    Forall (fun x => fit_ltb (self_fitness_func x) (self_fitness_func g)
                     = true) l1 /\
    Forall (fun x => fit_leb (self_fitness_func x) (self_fitness_func g)
                     = true) l2 /\
    (StronglySorted Z.lt l ->
     forall x, In x l ->
       fit_leb (self_fitness_func g) (self_fitness_func x) = true ->
       g <= x).
Proof.
  destruct l as [|b t]; [congruence |]. intros _.
  destruct (max_from_first self_fitness_func t b) as (l1 & l2 & D & F1 & F2).
  exists (Py.max_from fit_ltb self_fitness_func b t), l1, l2.
  split; [reflexivity |]. split; [exact D |].
  split; [exact F1 |]. split; [exact F2 |].
  intros S x Hx Le. rewrite D in Hx, S.
  apply in_app_or in Hx. destruct Hx as [Hx | [<- | Hx]].
  - rewrite Forall_forall in F1. specialize (F1 x Hx).
    destruct (fit_ltb_not_leb _ _ F1 Le).
  - lia.
  - pose proof (increasing_after _ _ _ _ S Hx). lia.
Qed.

(** X8.  Whenever the loop of a cycle ends, it leaves at most one genome;
    and a population of at most one genome is returned as it is, without
    any operator call. *)
Theorem evolving_leaves_at_most_one (fuel : nat) (selection_percentage : Q)
    (k_parallel : Z) (population : list Z) (s : state rng) :
  (forall population' s',
     evolving fuel selection_percentage k_parallel population s
     = Return population' s' ->
     (List.length population' <= 1)%nat) /\
  ((List.length population <= 1)%nat ->
   evolving (S fuel) selection_percentage k_parallel population s
   = Return population s).
Proof.
  split; [| apply evolving_small].
  revert population s. induction fuel as [|fuel IH];
    intros population s population' s' E; [discriminate E |].
  destruct (Nat.ltb_spec 1 (List.length population)) as [C | C].
  - destruct (degenerate selection_percentage population) eqn:D.
    + destruct (evolving_degenerate fuel selection_percentage k_parallel
                  population s C D) as (g & G & _).
      rewrite G in E. injection E as <- _. simpl. lia.
    + rewrite evolving_step, D in E.
      pose proof (proj2 (Nat.ltb_lt _ _) C) as C'. rewrite C' in E.
      unfold bind in E.
      destruct (generation_returns selection_percentage k_parallel
                  population s) as (rs & s1 & G & _).
      rewrite G in E. now apply IH in E.
  - rewrite evolving_small in E by exact C. now injection E as <- _.
Qed.

(** X9.  A cycle whose initial population is empty has no winner: the loop
    is skipped and [population[0]] raises [IndexError], which ends the
    driver right after that initialisation. *)
Theorem empty_initial_population (fuel : nat) (selection_percentage : Q)
    (k_parallel : Z) (s : state rng) (r : rng) :
  1 <= cycle ->
  init_population (random s) = ([], r) ->
  driver (S fuel) selection_percentage k_parallel s
  = Throw IndexError (mkState r (trace s ++ [InitPopulation])).
Proof.
  intros C E. unfold driver.
  destruct (Z.to_nat cycle) as [|c] eqn:N; [lia |].
  cbn [cycles]. unfold bind at 1 2, one_cycle, bind at 1, call.
  rewrite E. unfold bind.
  rewrite evolving_small by (simpl; lia). reflexivity.
Qed.

End DriverRuns.

Lemma fittest_is_first_of_ties_witness :
  exists g l1 l2,
    fittest (GA := Reference.ga 1 scenario []) [0; 4; 8; 12] = Ok g /\
    [0; 4; 8; 12] = l1 ++ g :: l2 /\
    Forall (fun x => fit_ltb (Reference.fitness_of scenario x)
                       (Reference.fitness_of scenario g) = true) l1 /\
    Forall (fun x => fit_leb (Reference.fitness_of scenario x)
                       (Reference.fitness_of scenario g) = true) l2 /\
    (StronglySorted Z.lt [0; 4; 8; 12] ->
     forall x, In x [0; 4; 8; 12] ->
       fit_leb (Reference.fitness_of scenario g)
         (Reference.fitness_of scenario x) = true ->
       g <= x).
Proof.
  apply (fittest_is_first_of_ties (GA := Reference.ga 1 scenario [])
           [0; 4; 8; 12]).
  discriminate.
Defined.

Lemma evolving_leaves_at_most_one_witness :
  (List.length [12]%Z <= 1)%nat /\
  evolving (GA := Reference.ga 1 scenario [3; 12; 5; 10]) 4 (1 # 2) 2 [7]
    Reference.start
  = Return [7] Reference.start.
Proof.
  destruct (evolving_leaves_at_most_one
              (GA := Reference.ga 1 scenario [3; 12; 5; 10])
              3 (1 # 2) 2 [3; 12; 5; 10] Reference.start) as (A & _).
  destruct (evolving_leaves_at_most_one
              (GA := Reference.ga 1 scenario [3; 12; 5; 10])
              3 (1 # 2) 2 [7] Reference.start) as (_ & B).
  split.
  - apply (A [12]
             (mkState tt [Selection; Crossover; Mutation; Crossover;
                          Mutation])).
    vm_compute. reflexivity.
  - apply B. simpl. lia.
Defined.

Lemma empty_initial_population_witness :
  driver (GA := Reference.ga 3 scenario []) 1 (1 # 2) 5 Reference.start
  = Throw IndexError (mkState tt (trace Reference.start ++ [InitPopulation])).
Proof.
  apply (empty_initial_population (GA := Reference.ga 3 scenario [])
           0 (1 # 2) 5 Reference.start tt).
  - simpl. lia.
  - reflexivity.
Defined.

Section Traces.

Context {rng : Type} {GA : GeneticAlgorithm rng}.

Variable selection_percentage : Q.
Variable k_parallel : Z.

Local Abbreviation K := (Z.to_nat k_parallel).

Lemma evolving_trace (fuel : nat) : forall population s,
  match evolving fuel selection_percentage k_parallel population s with
  | Return _ s' =>
      exists g,
        trace s' = trace s ++ List.concat (repeat (generation_trace K) g)
  | Throw _ _ => False
  | OutOfFuel => True
  end.
Proof.
  induction fuel as [|fuel IH]; intros population s; [exact I |].
  destruct (Nat.ltb_spec 1 (List.length population)) as [C | C].
  - destruct (degenerate selection_percentage population) eqn:D.
    + destruct (evolving_degenerate fuel selection_percentage k_parallel
                  population s C D) as (w & -> & _).
      exists 0%nat. simpl. now rewrite app_nil_r.
    + rewrite evolving_step, D.
      pose proof (proj2 (Nat.ltb_lt _ _) C) as C'. rewrite C'.
      unfold bind.
      destruct (generation_returns selection_percentage k_parallel
                  population s) as (rs & s1 & -> & _ & T).
      specialize (IH (merge rs) s1).
      destruct (evolving fuel selection_percentage k_parallel (merge rs) s1)
        as [p' s' | e s' |]; try exact IH.
      destruct IH as (g & T').
      exists (S g). rewrite T', T. cbn [repeat List.concat].
      unfold generation_trace at 3.
      now rewrite <- !app_assoc.
  - rewrite evolving_small by exact C. exists 0%nat. simpl.
    now rewrite app_nil_r.
Qed.

Lemma one_cycle_trace (fuel : nat) (s : state rng) :
  match one_cycle fuel selection_percentage k_parallel s with
  | Return _ s' | Throw _ s' =>
      exists g, trace s' = trace s ++ cycle_trace K g
  | OutOfFuel => True
  end.
Proof.
  unfold one_cycle, bind at 1, call.
  destruct (init_population (random s)) as [population r]. unfold bind.
  pose proof (evolving_trace fuel population
                (mkState r (trace s ++ [InitPopulation]))) as T.
  destruct (evolving fuel selection_percentage k_parallel population
              (mkState r (trace s ++ [InitPopulation])))
    as [p' s' | e s' |]; [| destruct T | exact I].
  destruct T as (g & T).
  assert (E : trace s' = trace s ++ cycle_trace K g).
  { rewrite T. simpl. now rewrite <- app_assoc. }
  destruct p' as [|w p']; simpl; now exists g.
Qed.

Lemma cycles_trace (fuel : nat) (count : nat) : forall winner_genomes s,
  match cycles fuel selection_percentage k_parallel count winner_genomes s
  with
  | Return _ s' =>
      exists gens,
        List.length gens = count /\ trace s' = trace s ++ run_trace K gens
  | Throw _ s' =>
      exists gens,
        (List.length gens <= count)%nat /\
        trace s' = trace s ++ run_trace K gens
  | OutOfFuel => True
  end.
Proof.
  induction count as [|c IH]; intros acc s.
  - exists []. simpl. now rewrite app_nil_r.
  - cbn [cycles]. unfold bind at 1.
    pose proof (one_cycle_trace fuel s) as T.
    destruct (one_cycle fuel selection_percentage k_parallel s)
      as [w s1 | e s1 |]; [| | exact I].
    + destruct T as (g & T). specialize (IH (acc ++ [w]) s1).
      destruct (cycles fuel selection_percentage k_parallel c
                  (acc ++ [w]) s1) as [ws s2 | e s2 |]; [| | exact I];
        destruct IH as (gens & L & T'); exists (g :: gens);
        (split; [simpl; lia |]);
        rewrite T', T; unfold run_trace; simpl;
        now rewrite <- app_assoc.
    + destruct T as (g & T). exists [g]. split; [simpl; lia |].
      rewrite T. unfold run_trace. simpl. now rewrite app_nil_r.
Qed.

Lemma driver_trace (fuel : nat) (s : state rng) :
  match driver fuel selection_percentage k_parallel s with
  | Return _ s' =>
      exists gens,
        List.length gens = Z.to_nat cycle /\
        trace s' = trace s ++ run_trace (Z.to_nat k_parallel) gens
  | Throw _ s' =>
      exists gens,
        (List.length gens <= Z.to_nat cycle)%nat /\
        trace s' = trace s ++ run_trace (Z.to_nat k_parallel) gens
  | OutOfFuel => True
  end.
Proof.
  unfold driver, bind.
  pose proof (cycles_trace fuel (Z.to_nat cycle) [] s) as T.
  destruct (cycles fuel selection_percentage k_parallel (Z.to_nat cycle)
              [] s) as [ws s1 | e s1 |]; [| exact T | exact I].
  destruct T as (gens & L & T).
  destruct (fittest ws) as [g | e]; simpl; exists gens;
    (split; [lia | exact T]).
Qed.

Lemma occurrences_app (ev : event) (t1 t2 : list event) :
  occurrences ev (t1 ++ t2) = (occurrences ev t1 + occurrences ev t2)%nat.
Proof. apply count_occ_app. Qed.

Lemma occurrences_islands (k : nat) :
  occurrences InitPopulation (List.concat (repeat [Crossover; Mutation] k))
  = 0%nat /\
  occurrences Selection (List.concat (repeat [Crossover; Mutation] k))
  = 0%nat /\
  occurrences Crossover (List.concat (repeat [Crossover; Mutation] k)) = k /\
  occurrences Mutation (List.concat (repeat [Crossover; Mutation] k)) = k.
Proof.
  induction k as [|k (I0 & I1 & I2 & I3)]; [now repeat split |].
  cbn [repeat List.concat]. rewrite !occurrences_app, I0, I1, I2, I3.
  now repeat split.
Qed.

Lemma occurrences_generations (k g : nat) :
  occurrences InitPopulation (List.concat (repeat (generation_trace k) g))
  = 0%nat /\
  occurrences Selection (List.concat (repeat (generation_trace k) g)) = g /\
  occurrences Crossover (List.concat (repeat (generation_trace k) g))
  = (k * g)%nat /\
  occurrences Mutation (List.concat (repeat (generation_trace k) g))
  = (k * g)%nat.
Proof.
  destruct (occurrences_islands k) as (J0 & J1 & J2 & J3).
  induction g as [|g (I0 & I1 & I2 & I3)];
    [rewrite Nat.mul_0_r; now repeat split |].
  cbn [repeat List.concat]. rewrite !occurrences_app, I0, I1, I2, I3.
  unfold generation_trace.
  change (Selection :: List.concat (repeat [Crossover; Mutation] k))
    with ([Selection] ++ List.concat (repeat [Crossover; Mutation] k)).
  rewrite !occurrences_app, J0, J1, J2, J3.
  repeat split; simpl; lia.
Qed.

Lemma occurrences_run (k : nat) (gens : list nat) :
  exists m,
    occurrences InitPopulation (run_trace k gens) = List.length gens /\
    occurrences Selection (run_trace k gens) = m /\
    occurrences Crossover (run_trace k gens) = (k * m)%nat /\
    occurrences Mutation (run_trace k gens) = (k * m)%nat.
Proof.
  induction gens as [|g gens (m & I0 & I1 & I2 & I3)].
  - exists 0%nat. rewrite Nat.mul_0_r. now repeat split.
  - exists (g + m)%nat. unfold run_trace in *. cbn [map List.concat].
    destruct (occurrences_generations k g) as (J0 & J1 & J2 & J3).
    unfold cycle_trace at 1 3 5 7.
    change (InitPopulation
            :: List.concat (repeat (generation_trace k) g))
      with ([InitPopulation]
            ++ List.concat (repeat (generation_trace k) g)).
    rewrite !occurrences_app, I0, I1, I2, I3, J0, J1, J2, J3.
    repeat split; simpl; lia.
Qed.

(** X10.  A run that returns has called the operators in fixed proportions:
    [init_population] exactly [cycle] times, and crossover and mutation each
    exactly [k_parallel] times for every call of selection, whatever the
    order in which the islands made their calls. *)
Theorem driver_call_counts (fuel : nat) (s : state rng) (best_genome : Z)
    (s' : state rng) :
  driver fuel selection_percentage k_parallel s = Return best_genome s' ->
  exists t,
    trace s' = trace s ++ t /\
    occurrences InitPopulation t = Z.to_nat cycle /\
    occurrences Crossover t
    = (Z.to_nat k_parallel * occurrences Selection t)%nat /\
    occurrences Mutation t
    = (Z.to_nat k_parallel * occurrences Selection t)%nat.
Proof.
  intros E. pose proof (driver_trace fuel s) as T. rewrite E in T.
  destruct T as (gens & L & T).
  destruct (occurrences_run K gens) as (m & I0 & I1 & I2 & I3).
  exists (run_trace K gens). rewrite I0, I1, I2, I3.
  now repeat split.
Qed.

End Traces.

Lemma driver_call_counts_witness :
  exists t,
    trace (mkState tt [InitPopulation; Selection; Crossover; Mutation;
                       Crossover; Mutation])
    = trace Reference.start ++ t /\
    occurrences InitPopulation t = Z.to_nat 1 /\
    occurrences Crossover t = (Z.to_nat 2 * occurrences Selection t)%nat /\
    occurrences Mutation t = (Z.to_nat 2 * occurrences Selection t)%nat.
Proof.
  apply (driver_call_counts (GA := Reference.ga 1 scenario [3; 12; 5; 10])
           (1 # 2) 2 4 Reference.start 12).
  vm_compute. reflexivity.
Defined.

Lemma increasing_length (l : list Z) :
  StronglySorted Z.lt l ->
  forall lo hi, (forall x, In x l -> lo <= x < hi) ->
  Z.of_nat (List.length l) <= Z.max 0 (hi - lo).
Proof.
  induction 1 as [|h t S IH F]; intros lo hi B; [simpl; lia |].
  rewrite Forall_forall in F.
  assert (Z.of_nat (List.length t) <= Z.max 0 (hi - (h + 1))).
  { apply IH. intros x Hx. specialize (F x Hx).
    specialize (B x (or_intror Hx)). lia. }
  specialize (B h (or_introl eq_refl)). simpl List.length. lia.
Qed.

(** X11.  A merge never enlarges what was stacked, and the merged population
    of genomes that all lie in [[0, 2^w - 1]] holds at most [2^w] genomes. *)
Theorem merge_size (results : list (list Z)) (w : Z) :
  (List.length (merge results) <= List.length (List.concat results))%nat /\
  (0 <= w ->
   (forall g, In g (List.concat results) -> 0 <= g <= 2 ^ w - 1) ->
   Z.of_nat (List.length (merge results)) <= 2 ^ w).
Proof.
  split.
  - unfold merge. rewrite hstack_all. apply length_unique.
  - intros Hw B.
    assert (P : 0 < 2 ^ w) by (apply Z.pow_pos_nonneg; lia).
    pose proof (increasing_length (merge results)
                  (unique_increasing _) 0 (2 ^ w)) as L.
    fold (merge results) in L.
    rewrite Z.sub_0_r, Z.max_r in L by lia. apply L.
    intros x Hx. apply (proj1 (In_merge _ _)) in Hx.
    specialize (B x Hx). lia.
Qed.

Lemma merge_size_witness :
  (List.length (merge [[3; 1]; [1; 2; 3]]%Z)
   <= List.length (List.concat [[3; 1]; [1; 2; 3]]%Z))%nat /\
  Z.of_nat (List.length (merge [[3; 1]; [1; 2; 3]])) <= 2 ^ 2.
Proof.
  destruct (merge_size [[3; 1]; [1; 2; 3]] 2) as (A & B).
  split; [exact A |]. apply B; [lia |].
  simpl. intros g H. repeat (destruct H as [<- | H]; [lia |]). destruct H.
Defined.

(** ** The reference selection keeps genomes of the population *)

Section ReferenceSelection.

Variable f : Z -> fit.

Lemma In_insert_ranked (g x : Z) (l : list Z) :
  In x (Reference.insert_ranked f g l) <-> x = g \/ In x l.
Proof.
  induction l as [|h t IH]; simpl; [intuition |].
  destruct (fit_ltb (f g) (f h)); simpl; [rewrite IH |]; intuition.
Qed.

Lemma In_rank (x : Z) (l : list Z) : In x (Reference.rank f l) <-> In x l.
Proof.
  induction l as [|h t IH]; simpl; [reflexivity |].
  rewrite In_insert_ranked, IH. intuition.
Qed.

Lemma length_insert_ranked (g : Z) (l : list Z) :
  List.length (Reference.insert_ranked f g l) = S (List.length l).
Proof.
  induction l as [|h t IH]; simpl; [reflexivity |].
  destruct (fit_ltb (f g) (f h)); simpl; [now rewrite IH | reflexivity].
Qed.

Lemma length_rank (l : list Z) :
  List.length (Reference.rank f l) = List.length l.
Proof.
  induction l as [|h t IH]; simpl; [reflexivity |].
  now rewrite length_insert_ranked, IH.
Qed.

Lemma retained_whole (m : nat) : (m <= Reference.retained 1 m)%nat.
Proof.
  unfold Reference.retained, Qceiling, Qfloor, Qopp, Qmult, inject_Z.
  cbn [Qnum Qden]. rewrite Z.mul_1_l. change (Z.pos (1 * 1)) with 1.
  rewrite Z.div_1_r. lia.
Qed.

Lemma select_whole (population : list Z) :
  incl population (Reference.select f population 1).
Proof.
  unfold Reference.select.
  rewrite firstn_all2 by (rewrite length_rank; apply retained_whole).
  intros x Hx. now apply In_rank.
Qed.

Lemma select_sublist (population : list Z) (percentage : Q) :
  incl (Reference.select f population percentage) population.
Proof.
  unfold Reference.select. intros x Hx.
  apply In_rank. eapply (In_nth_error) in Hx. destruct Hx as (i & Hi).
  pose proof Hi as Hi'. apply nth_error_In in Hi'.
  clear Hi. revert x Hi'.
  generalize (Reference.retained percentage (List.length population)).
  generalize (Reference.rank f population).
  intros l m. revert l. induction m as [|m IH]; intros [|h t] x Hx;
    simpl in *; try contradiction.
  destruct Hx as [<- | Hx]; [now left | right; now apply IH].
Qed.

End ReferenceSelection.

(** ** Genomes of a run *)

Section Invariants.

Context {rng : Type} {GA : GeneticAlgorithm rng}.

Variable good : Z -> Prop.

Hypothesis init_good :
  forall r, Forall good (fst (init_population r)).
Hypothesis selection_good :
  forall population percentage r,
    Forall good population ->
    Forall good (fst (selection population percentage r)).
Hypothesis crossover_good :
  forall population r,
    Forall good population -> Forall good (fst (crossover population r)).
Hypothesis mutation_good :
  forall population r,
    Forall good population -> Forall good (fst (mutation population r)).

Lemma crossover_mutation_good (population : list Z) (s : state rng) :
  Forall good population ->
  exists result s',
    crossover_mutation population s = Return result s' /\
    Forall good result.
Proof.
  intros G. unfold crossover_mutation, bind, call, ret.
  pose proof (crossover_good population (random s) G) as C.
  destruct (crossover population (random s)) as [p1 g1]. simpl in *.
  pose proof (mutation_good p1 g1 C) as U.
  destruct (mutation p1 g1) as [p2 g2]. simpl in *.
  eexists _, _. split; [reflexivity | exact U].
Qed.

Lemma islands_good (k : nat) (population : list Z) :
  Forall good population ->
  forall s, exists results s',
    islands k population s = Return results s' /\
    Forall (Forall good) results.
Proof.
  intros G. induction k as [|k IH]; intros s; simpl.
  - exists [], s. split; [reflexivity | constructor].
  - unfold bind at 1.
    destruct (crossover_mutation_good population s G) as (r & s1 & -> & Gr).
    unfold bind at 1. destruct (IH s1) as (rs & s2 & -> & Grs).
    exists (r :: rs), s2. split; [reflexivity | now constructor].
Qed.

Lemma merge_good (results : list (list Z)) :
  Forall (Forall good) results -> Forall good (merge results).
Proof.
  intros G. apply Forall_forall. intros x Hx.
  apply (proj1 (In_merge _ _)) in Hx. apply in_concat in Hx.
  destruct Hx as (r & Hr & Hx).
  rewrite Forall_forall in G. specialize (G r Hr).
  rewrite Forall_forall in G. now apply G.
Qed.

Lemma generation_good (selection_percentage : Q) (k_parallel : Z)
    (population : list Z) (s : state rng) :
  Forall good population ->
  exists population' s',
    generation selection_percentage k_parallel population s
    = Return population' s' /\
    Forall good population'.
Proof.
  intros G. unfold generation, bind at 1, call.
  pose proof (selection_good population selection_percentage (random s) G)
    as Sel.
  destruct (selection population selection_percentage (random s))
    as [survivors g]. simpl in Sel. unfold bind.
  destruct (islands_good (Z.to_nat k_parallel) survivors Sel
              (mkState g (trace s ++ [Selection])))
    as (rs & s2 & -> & Grs).
  exists (merge rs), s2. split; [reflexivity | now apply merge_good].
Qed.

Lemma evolving_good (selection_percentage : Q) (k_parallel : Z)
    (fuel : nat) : forall population s,
  Forall good population ->
  match evolving fuel selection_percentage k_parallel population s with
  | Return population' _ => Forall good population'
  | Throw _ _ => False
  | OutOfFuel => True
  end.
Proof.
  induction fuel as [|fuel IH]; intros population s G; [exact I |].
  destruct (Nat.ltb_spec 1 (List.length population)) as [C | C].
  - destruct (degenerate selection_percentage population) eqn:D.
    + destruct (evolving_degenerate fuel selection_percentage k_parallel
                  population s C D) as (w & -> & Hw & _).
      constructor; [| constructor].
      rewrite Forall_forall in G. now apply G.
    + rewrite evolving_step, D.
      pose proof (proj2 (Nat.ltb_lt _ _) C) as C'. rewrite C'.
      unfold bind.
      destruct (generation_good selection_percentage k_parallel
                  population s G) as (p' & s1 & -> & G').
      now apply IH.
  - now rewrite evolving_small by exact C.
Qed.

Lemma one_cycle_good (selection_percentage : Q) (k_parallel : Z)
    (fuel : nat) (s : state rng) :
  match one_cycle fuel selection_percentage k_parallel s with
  | Return winner _ => good winner
  | _ => True
  end.
Proof.
  unfold one_cycle, bind at 1, call.
  pose proof (init_good (random s)) as G.
  destruct (init_population (random s)) as [population r]. simpl in G.
  unfold bind.
  pose proof (evolving_good selection_percentage k_parallel fuel population
                (mkState r (trace s ++ [InitPopulation])) G) as E.
  destruct (evolving fuel selection_percentage k_parallel population
              (mkState r (trace s ++ [InitPopulation])))
    as [p' s' | e s' |]; [| exact I | exact I].
  destruct p' as [|w p']; simpl; [exact I |].
  now inversion E.
Qed.

Lemma cycles_good (selection_percentage : Q) (k_parallel : Z)
    (fuel count : nat) : forall winner_genomes s,
  Forall good winner_genomes ->
  match cycles fuel selection_percentage k_parallel count winner_genomes s
  with
  | Return winners _ => Forall good winners
  | _ => True
  end.
Proof.
  induction count as [|c IH]; intros acc s G; [exact G |].
  cbn [cycles]. unfold bind at 1.
  pose proof (one_cycle_good selection_percentage k_parallel fuel s) as W.
  destruct (one_cycle fuel selection_percentage k_parallel s)
    as [w s1 | e s1 |]; [| exact I | exact I].
  apply IH. apply Forall_app. split; [exact G | now constructor].
Qed.

(** X13.  The driver introduces no genome of its own: a property that holds
    of every genome of every initial population and that selection,
    crossover and mutation pass on from their input to their output holds of
    the genome that the driver returns. *)
Theorem driver_result_good (fuel : nat) (selection_percentage : Q)
    (k_parallel : Z) (s : state rng) (best_genome : Z) (s' : state rng) :
  driver fuel selection_percentage k_parallel s = Return best_genome s' ->
  good best_genome.
Proof.
  unfold driver, bind. intros E.
  pose proof (cycles_good selection_percentage k_parallel fuel
                (Z.to_nat cycle) [] s (Forall_nil _)) as G.
  destruct (cycles fuel selection_percentage k_parallel (Z.to_nat cycle)
              [] s) as [ws s1 | e s1 |]; try discriminate.
  destruct ws as [|w0 ws]; [discriminate |].
  destruct (fittest_greatest (w0 :: ws)) as (g & F & In_g & _);
    [discriminate |].
  rewrite F in E. injection E as <- _.
  rewrite Forall_forall in G. now apply G.
Qed.

End Invariants.

(** X12.  When the whole population is selected (fraction 1) and the
    offspring returned by crossover and mutation include their parents, as
    the docstring of [crossover_mutation] announces, the loop of a cycle
    never ends on a population with two different genomes: whatever the
    bound on the iterations, the loop is still running. *)
Theorem loop_runs_forever_when_parents_are_kept {rng : Type}
    {GA : GeneticAlgorithm rng} (k_parallel : Z) (a b : Z)
    (population : list Z) (s : state rng) (fuel : nat) :
  (forall p r, incl p (fst (selection p 1 r))) ->
  (forall p r, incl p (fst (crossover p r))) ->
  (forall p r, incl p (fst (mutation p r))) ->
  1 <= k_parallel -> a <> b -> In a population -> In b population ->
  evolving fuel 1 k_parallel population s = OutOfFuel.
Proof.
  intros Hs Hc Hm K N Ha Hb.
  now apply (evolving_never_ends Hs Hc Hm k_parallel a b K N).
Qed.

Lemma loop_runs_forever_when_parents_are_kept_witness :
  evolving (GA := Reference.ga 1 scenario [3; 12]) 100 1 3 [3; 12]
    Reference.start
  = OutOfFuel.
Proof.
  apply (loop_runs_forever_when_parents_are_kept
           (GA := Reference.ga 1 scenario [3; 12]) 3 3 12).
  - intros p r. apply select_whole.
  - intros p r. apply incl_refl.
  - intros p r. apply incl_refl.
  - lia.
  - discriminate.
  - simpl; auto.
  - simpl; auto.
Defined.

Lemma driver_result_good_witness : 0 <= 12 <= 15.
Proof.
  apply (driver_result_good (GA := Reference.ga 1 scenario [3; 12; 5; 10])
           (fun g => 0 <= g <= 15)) with
    (fuel := 4%nat) (selection_percentage := 1 # 2) (k_parallel := 2)
    (s := Reference.start)
    (s' := mkState tt [InitPopulation; Selection; Crossover; Mutation;
                       Crossover; Mutation]).
  - intros r. simpl. repeat (apply Forall_cons; [lia |]). apply Forall_nil.
  - intros p q r G. simpl. apply Forall_forall. intros x Hx.
    apply select_sublist in Hx. rewrite Forall_forall in G. now apply G.
  - intros p r G. exact G.
  - intros p r G. exact G.
  - vm_compute. reflexivity.
Defined.

(** * Properties of the instance generator *)

Section GeneratedInstances.

Lemma length_cumsum_from (l : list Z) : forall acc,
  List.length (Generator.cumsum_from acc l) = List.length l.
Proof.
  induction l as [|x t IH]; intros acc; simpl; [reflexivity |].
  now rewrite IH.
Qed.

Lemma total_nonneg (l : list Z) :
  Forall (fun d => 1 <= d) l -> 0 <= Generator.total l.
Proof.
  induction 1 as [|x t Hx _ IH]; simpl; [lia |].
  unfold Generator.total in *. simpl. lia.
Qed.

(** The running sums are exact as long as the whole sum fits in 64 bits. *)
Lemma nth_cumsum_from (l : list Z) : forall acc i,
  Forall (fun d => 1 <= d) l -> (i < List.length l)%nat ->
  - 2 ^ 63 <= acc -> acc + Generator.total l < 2 ^ 63 ->
  nth i (Generator.cumsum_from acc l) 0
  = acc + Generator.total (firstn (S i) l) /\
  acc + Z.of_nat i + 1 <= acc + Generator.total (firstn (S i) l)
  <= acc + Generator.total l.
Proof.
  induction l as [|x t IH]; intros acc i F Hi Lo Hi'; simpl in Hi; [lia |].
  inversion F as [| ? ? Hx F']; subst.
  pose proof (total_nonneg t F') as Nt.
  assert (E : Np.int64 (acc + x) = acc + x).
  { apply int64_exact. unfold in_int64, Generator.total in *.
    simpl in Hi'. lia. }
  cbn [Generator.cumsum_from]. rewrite E.
  destruct i as [|i].
  - unfold Generator.total in *. simpl in *. lia.
  - destruct (IH (acc + x) i F' ltac:(lia)) as (V & B).
    + lia.
    + unfold Generator.total in *. simpl in Hi'. lia.
    + cbn [nth]. rewrite V.
      unfold Generator.total in *. cbn [firstn fold_right] in *. lia.
Qed.

Lemma add_same_length (a b : list Z) :
  List.length a = List.length b ->
  exists c,
    Generator.add a b = Ok c /\
    List.length c = List.length a /\
    forall i, (i < List.length a)%nat ->
      nth i c 0 = Np.int64 (nth i a 0 + nth i b 0).
Proof.
  intros L. unfold Generator.add. rewrite L, Nat.eqb_refl.
  eexists. split; [reflexivity |]. split.
  - rewrite length_map, length_combine. lia.
  - revert b L. induction a as [|x a IH]; intros [|y b] L i Hi;
      simpl in *; try lia.
    destruct i as [|i]; [reflexivity |]. apply IH; lia.
Qed.

Lemma slice_from_minus_tenth (l : list Z) (m : Z) :
  Z.of_nat (List.length l) = m ->
  Generator.slice_from l (Generator.minus_tenth m) =
  skipn (Z.to_nat (if m <? 10 then 0 else m - m ÷ 10)) l.
Proof.
  intros L. unfold Generator.slice_from, Generator.minus_tenth.
  assert (0 <= m) by lia.
  pose proof (Z.quot_pos m 10 ltac:(lia) ltac:(lia)) as Q.
  destruct (Z.ltb_spec m 10) as [S | S].
  - rewrite Z.quot_small by lia. reflexivity.
  - assert (1 <= m ÷ 10).
    { apply Z.quot_le_lower_bound; lia. }
    destruct (Z.ltb_spec (- (m ÷ 10)) 0); [| lia].
    f_equal. assert (m ÷ 10 <= m) by (apply Z.quot_le_upper_bound; lia).
    lia.
Qed.

Lemma In_after_skipn (c : nat) : forall (l : list Z) (x : Z),
  In x (skipn c l) -> In x l.
Proof.
  induction c as [|c IH]; intros [|h t] x H; simpl in *; auto.
Qed.

End GeneratedInstances.

(** X14.  A generated instance is well formed and every item is worth more
    than it weighs, as long as nothing leaves the 64-bit range: with
    [n >= 1] items, steps drawn from [[1, upper_seed - 1]] for an
    [upper_seed] of at most [2^63], and one non-negative load per item
    that, added to the sum of all steps, stays below [2^63], the generator
    returns an instance with [n] weights and [n] values in which the value
    of item [i] exceeds its weight by the sum of the first [i + 1] steps,
    hence by at least [i + 1]. *)
Theorem generated_values_exceed_weights (m upper_seed : Z)
    (steps loads : list Z) (j : nat) :
  1 <= m -> upper_seed <= 2 ^ 63 ->
  Z.of_nat (List.length steps) = m -> Z.of_nat (List.length loads) = m ->
  Forall (fun d => 1 <= d < upper_seed) steps ->
  Forall (fun l => 0 <= l /\ Generator.total steps + l < 2 ^ 63) loads ->
  Z.of_nat j < (if m <? 10 then m else m ÷ 10) ->
  exists k,
    Generator.init m upper_seed steps loads j = Ok k /\
    well_formed k /\ n k = m /\ weights k = loads /\
    forall i, (i < List.length loads)%nat ->
      nth i (values k) 0 - nth i (weights k) 0
      = Generator.total (firstn (S i) steps) /\
      Z.of_nat i + 1 <= Generator.total (firstn (S i) steps).
Proof.
  intros Hm Hu Ls Ll F Fl Hj. unfold Generator.init.
  assert (U : 1 < upper_seed).
  { destruct steps as [|d t]; [simpl in Ls; lia |].
    inversion F; subst. lia. }
  assert (R : Generator.randint_refuses m upper_seed = false).
  { unfold Generator.randint_refuses.
    destruct (Z.ltb_spec m 0); [lia |].
    destruct (Z.leb_spec upper_seed 1); [lia |].
    destruct (Z.ltb_spec (2 ^ 63) upper_seed); [lia |].
    now rewrite andb_false_r. }
  rewrite R.
  destruct (add_same_length (Generator.cumsum steps) loads)
    as (vs & -> & Lv & Nv).
  { unfold Generator.cumsum. rewrite length_cumsum_from. lia. }
  unfold Generator.cumsum in Lv. rewrite length_cumsum_from in Lv.
  cbn [res_bind]. rewrite slice_from_minus_tenth by exact Ll.
  unfold Generator.choice.
  destruct (nth_error _ j) as [top |] eqn:E.
  - cbn [res_bind]. eexists. split; [reflexivity |].
    cbn [n weights values capacity].
    split; [repeat split; simpl; lia |]. split; [reflexivity |].
    split; [reflexivity |]. intros i Hi.
    assert (F1 : Forall (fun d => 1 <= d) steps)
      by (eapply Forall_impl; [| exact F]; simpl; intros; lia).
    assert (Hl : 0 <= nth i loads 0
                 /\ Generator.total steps + nth i loads 0 < 2 ^ 63).
    { rewrite Forall_forall in Fl. apply Fl. now apply nth_In. }
    destruct (nth_cumsum_from steps 0 i F1 ltac:(lia) ltac:(lia)
                ltac:(lia)) as (V & B).
    rewrite Nv by (unfold Generator.cumsum;
                   rewrite length_cumsum_from; lia).
    unfold Generator.cumsum. rewrite V.
    rewrite int64_exact by (unfold in_int64; lia).
    split; lia.
  - apply nth_error_None in E. rewrite length_skipn in E.
    assert (0 <= m ÷ 10 <= m).
    { split; [apply Z.quot_pos; lia | apply Z.quot_le_upper_bound; lia]. }
    destruct (Z.ltb_spec m 10); lia.
Qed.

Lemma generated_values_exceed_weights_witness :
  exists k,
    Generator.init 4 51 [3; 1; 2; 5] [1; 2; 4; 7] 2 = Ok k /\
    well_formed k /\ n k = 4 /\ weights k = [1; 2; 4; 7] /\
    forall i, (i < List.length [1; 2; 4; 7]%Z)%nat ->
      nth i (values k) 0 - nth i (weights k) 0
      = Generator.total (firstn (S i) [3; 1; 2; 5]) /\
      Z.of_nat i + 1 <= Generator.total (firstn (S i) [3; 1; 2; 5]).
Proof.
  apply (generated_values_exceed_weights 4 51 [3; 1; 2; 5] [1; 2; 4; 7] 2).
  - lia.
  - lia.
  - reflexivity.
  - reflexivity.
  - repeat (apply Forall_cons; [lia |]). apply Forall_nil.
  - repeat (apply Forall_cons; [simpl; lia |]). apply Forall_nil.
  - simpl. lia.
Defined.

(** X15.  The capacity of a generated instance is three times one of its
    weights, in 64-bit arithmetic.  With ten items or more the weight is
    drawn from the last [n quot 10] items; with fewer than ten items the
    slice [weights[0:]] is the whole vector and any weight can be drawn.
    Without items there is nothing to draw from and the generator raises
    [IndexError], whatever [upper_seed] is. *)
Theorem generated_capacity (m upper_seed : Z) (steps loads : list Z)
    (j : nat) (k : Knapsack) :
  (Generator.init m upper_seed steps loads j = Ok k ->
   Z.of_nat (List.length loads) = m ->
   exists w,
     nth_error
       (skipn (Z.to_nat (if m <? 10 then 0 else m - m ÷ 10)) (weights k)) j
     = Some w /\
     In w (weights k) /\
     capacity k = Np.int64 (3 * w) /\
     (in_int64 (3 * w) -> capacity k = 3 * w)) /\
  Generator.init 0 upper_seed [] [] j = Raise IndexError.
Proof.
  split.
  - unfold Generator.init. intros E Ll.
    destruct (Generator.randint_refuses m upper_seed); [discriminate |].
    destruct (Generator.add (Generator.cumsum steps) loads) as [vs | e];
      [| discriminate].
    cbn [res_bind] in E. rewrite slice_from_minus_tenth in E by exact Ll.
    unfold Generator.choice in E.
    destruct (nth_error _ j) as [top |] eqn:T; [| discriminate].
    cbn [res_bind] in E. injection E as <-. simpl.
    exists top. split; [exact T |]. split; [| split].
    + apply nth_error_In in T. eapply In_after_skipn, T.
    + reflexivity.
    + apply int64_exact.
  - unfold Generator.init, Generator.randint_refuses.
    change (0 <? 0) with false. cbn [orb andb].
    destruct j; reflexivity.
Qed.

Lemma generated_capacity_witness :
  exists w,
    nth_error
      (skipn (Z.to_nat (if 4 <? 10 then 0 else 4 - 4 ÷ 10))
         (weights (mkKnapsack 4 [1; 2; 4; 7] [4; 6; 10; 18] 3))) 0
    = Some w /\
    In w (weights (mkKnapsack 4 [1; 2; 4; 7] [4; 6; 10; 18] 3)) /\
    capacity (mkKnapsack 4 [1; 2; 4; 7] [4; 6; 10; 18] 3)
    = Np.int64 (3 * w) /\
    (in_int64 (3 * w) ->
     capacity (mkKnapsack 4 [1; 2; 4; 7] [4; 6; 10; 18] 3) = 3 * w).
Proof.
  destruct (generated_capacity 4 51 [3; 1; 2; 5] [1; 2; 4; 7] 0
              (mkKnapsack 4 [1; 2; 4; 7] [4; 6; 10; 18] 3)) as (A & _).
  apply A; reflexivity.
Defined.

(** * Negative codes *)

Lemma poswidth_spec (p : positive) :
  let L := bits_needed (Zpos p) in
  let pw := if 2 ^ (L - 1) =? Zpos p then L - 1 else L in
  pw = Z.log2_up (Zpos p) /\ 0 <= pw /\ Zpos p <= 2 ^ pw.
Proof.
  unfold bits_needed. cbv zeta.
  pose proof (Z.log2_spec (Zpos p) ltac:(lia)) as [Lo Hi].
  pose proof (Z.log2_nonneg (Zpos p)) as N.
  replace (Z.log2 (Zpos p) + 1 - 1) with (Z.log2 (Zpos p)) by lia.
  destruct (Z.eqb_spec (2 ^ Z.log2 (Zpos p)) (Zpos p)) as [E | E].
  - split; [| split; [exact N | lia]].
    rewrite <- E at 2. now rewrite Z.log2_up_pow2.
  - split; [| split; [lia |]].
    + symmetry. apply Z.log2_up_unique; [lia |].
      replace (Z.pred (Z.log2 (Zpos p) + 1)) with (Z.log2 (Zpos p)) by lia.
      replace (Z.log2 (Zpos p) + 1) with (Z.succ (Z.log2 (Zpos p))) by lia.
      lia.
    + replace (Z.log2 (Zpos p) + 1) with (Z.succ (Z.log2 (Zpos p))) by lia.
      lia.
Qed.

Lemma msb_first_bits_ones (num tc : Z) (q : positive) (k : nat) :
  num < 0 -> tc = Zpos q ->
  tc = num + 2 ^ Z.of_nat (List.length (lsb_bits q)) ->
  msb_first_bits num (List.length (lsb_bits q) + k) =
  map Z.b2z (repeat true k ++ rev (lsb_bits q)).
Proof.
  intros Hn -> Htc. unfold msb_first_bits.
  rewrite seq_app, map_app, rev_app_distr, map_app. simpl seq. f_equal.
  - rewrite (map_ext_in _ (fun _ => 1)).
    + now rewrite map_const, length_seq, rev_repeat, map_repeat.
    + intros i Hi. apply in_seq in Hi.
      rewrite Z.bits_above_log2_neg; [reflexivity | lia |].
      pose proof (length_lsb_bits q) as L. unfold bits_needed in L.
      pose proof (Z.log2_spec (Zpos q) ltac:(lia)) as [Lo Hi'].
      pose proof (Z.log2_nonneg (Zpos q)) as Nq.
      assert (B : Z.pred (- num)
                  < 2 ^ Z.of_nat (List.length (lsb_bits q))) by lia.
      destruct (Z.eq_dec (Z.pred (- num)) 0) as [-> | NZ]; [simpl; lia |].
      assert (Z.log2 (Z.pred (- num)) < Z.of_nat (List.length (lsb_bits q))).
      { apply Z.log2_lt_pow2; lia. }
      lia.
  - rewrite map_rev. f_equal.
    rewrite (lsb_bits_testbit q) at 2. rewrite map_map.
    apply map_ext_in. intros i Hi. apply in_seq in Hi. f_equal.
    rewrite Htc.
    rewrite <- (Z.mod_pow2_bits_low
                  (num + 2 ^ Z.of_nat (List.length (lsb_bits q)))
                  (Z.of_nat (List.length (lsb_bits q)))) by lia.
    rewrite <- (Z.mod_pow2_bits_low num
                  (Z.of_nat (List.length (lsb_bits q))) (Z.of_nat i)) by lia.
    f_equal.
    rewrite <- (Z.mod_add num 1 (2 ^ Z.of_nat (List.length (lsb_bits q))))
      by (apply Z.pow_nonzero; lia).
    now rewrite Z.mul_1_l.
Qed.

Lemma get_genome_sequence_neg (p : positive) (w : Z) :
  get_genome_sequence (Zneg p) w =
  Ok (msb_first_bits (Zneg p)
        (Z.to_nat (Z.max (Z.log2_up (Zpos p) + 1) w))).
Proof.
  unfold get_genome_sequence, Np.binary_repr.
  change (- Z.neg p) with (Zpos p).
  change (Py.bin_tail (Zpos p)) with (Py.bin_pos p "").
  rewrite len_bin_pos, length_lsb_bits.
  destruct (poswidth_spec p) as (E & N & B). cbv zeta in E, N, B.
  set (pw := if 2 ^ (bits_needed (Zpos p) - 1) =? Zpos p
             then bits_needed (Zpos p) - 1 else bits_needed (Zpos p)) in *.
  rewrite <- E. clearbody pw. clear E.
  assert (P2 : 2 ^ (pw + 1) = 2 * 2 ^ pw)
    by (rewrite Z.pow_add_r by lia; lia).
  assert (P0 : 0 < 2 ^ pw) by (apply Z.pow_pos_nonneg; lia).
  destruct (2 ^ (pw + 1) + Z.neg p) as [|q|q] eqn:T; try lia.
  assert (Lq : Z.of_nat (List.length (lsb_bits q)) = pw + 1).
  { rewrite length_lsb_bits. unfold bits_needed. f_equal.
    apply Z.log2_unique; [lia |].
    replace (Z.succ pw) with (pw + 1) by lia. lia. }
  change (Py.bin_tail (Zpos q)) with (Py.bin_pos q "").
  rewrite len_bin_pos, Lq.
  rewrite chars_append, (chars_str_mul true), chars_bin_pos.
  simpl list_ascii_of_string. rewrite app_nil_r, <- map_app.
  rewrite int_of_bit_chars. f_equal.
  replace (Z.to_nat (Z.max (pw + 1) w))
    with (List.length (lsb_bits q)
          + Z.to_nat (Z.max (pw + 1) w - (pw + 1)))%nat by lia.
  symmetry.
  apply (msb_first_bits_ones (Zneg p) (Zpos q)); [lia | reflexivity |].
  rewrite Lq. lia.
Qed.


Lemma lsb_value_mod (m : nat) : forall c,
  fold_right (fun b a => shift a b) 0
    (map (fun i => Z.testbit c (Z.of_nat i)) (seq 0 m))
  = c mod 2 ^ Z.of_nat m.
Proof.
  induction m as [|m IH]; intros c.
  - simpl. now rewrite Z.mod_1_r.
  - cbn [seq map fold_right]. rewrite <- seq_shift, map_map.
    rewrite (map_ext _ (fun i => Z.testbit (c / 2) (Z.of_nat i))).
    + rewrite IH. unfold shift. rewrite Z.bit0_mod.
      rewrite Nat2Z.inj_succ, Z.pow_succ_r by lia.
      rewrite (Z.rem_mul_r c 2 (2 ^ Z.of_nat m)); [lia | lia |].
      apply Z.pow_pos_nonneg; lia.
    + intros i. rewrite Nat2Z.inj_succ. symmetry. apply Z.div2_bits. lia.
Qed.

Lemma get_genome_value_msb_first_bits (c : Z) (m : nat) :
  (1 <= m)%nat ->
  get_genome_value (msb_first_bits c m) = Ok (c mod 2 ^ Z.of_nat m).
Proof.
  intros Hm. unfold msb_first_bits.
  rewrite <- (map_map (fun i => Z.testbit c (Z.of_nat i)) Z.b2z), <- map_rev.
  rewrite get_genome_value_bits.
  - f_equal. rewrite value_rev, rev_involutive. apply lsb_value_mod.
  - intros E. apply (f_equal (@List.length bool)) in E.
    rewrite length_rev, length_map, length_seq in E. simpl in E. lia.
Qed.

(** X16.  A negative code raises no exception either: it is decoded to its
    two's complement on [m] bits, [m] being the larger of the width and of
    the number of bits that two's complement needs for the code.  Encoding
    that sequence returns [code + 2^m]: the round trip through the codec
    gives the code back for non-negative codes only. *)
Theorem negative_code_twos_complement (num w : Z) :
  num < 0 ->
  let m := Z.max (Z.log2_up (- num) + 1) w in
  get_genome_sequence num w = Ok (msb_first_bits num (Z.to_nat m)) /\
  (genome <- get_genome_sequence num w ;; get_genome_value genome)
  = Ok (num + 2 ^ m).
Proof.
  intros Hn m. destruct num as [|p|p]; try lia.
  change (- Z.neg p) with (Zpos p) in m.
  pose proof (get_genome_sequence_neg p w) as D. fold m in D.
  split; [exact D |]. rewrite D. simpl res_bind.
  pose proof (Z.log2_up_nonneg (Zpos p)) as N.
  rewrite get_genome_value_msb_first_bits by lia.
  rewrite Z2Nat.id by lia. f_equal.
  destruct (poswidth_spec p) as (E & _ & B). cbv zeta in E, B.
  rewrite E in B.
  assert (P : 2 * 2 ^ Z.log2_up (Zpos p) <= 2 ^ m).
  { rewrite <- Z.pow_succ_r by lia. apply Z.pow_le_mono_r; lia. }
  rewrite <- (Z.mod_add (Z.neg p) 1 (2 ^ m)) by lia.
  rewrite Z.mul_1_l. apply Z.mod_small. lia.
Qed.

Lemma negative_code_twos_complement_witness :
  get_genome_sequence (-3) 5
  = Ok (msb_first_bits (-3)
          (Z.to_nat (Z.max (Z.log2_up (- (-3)) + 1) 5))) /\
  (genome <- get_genome_sequence (-3) 5 ;; get_genome_value genome)
  = Ok (-3 + 2 ^ Z.max (Z.log2_up (- (-3)) + 1) 5).
Proof. apply (negative_code_twos_complement (-3) 5). lia. Defined.

Example get_genome_sequence_neg3_5 :
  get_genome_sequence (-3) 5 = Ok [1; 1; 1; 0; 1].
Proof. reflexivity. Qed.

(** * Errors of the codec and of the fitness *)

Section Errors.

Lemma append_assoc (a b c : string) :
  ((a ++ b) ++ c)%string = (a ++ (b ++ c))%string.
Proof. induction a as [|x a IH]; simpl; [reflexivity | now rewrite IH]. Qed.

Lemma join_app (l1 l2 : list string) :
  Py.join (l1 ++ l2) = (Py.join l1 ++ Py.join l2)%string.
Proof.
  induction l1 as [|s l1 IH]; simpl; [reflexivity |].
  unfold Py.join in *. simpl. now rewrite IH, append_assoc.
Qed.

(** A character other than 0 and 1 anywhere in the digits is an error. *)
Lemma bin_value_bad_digit (c : ascii) (s1 s2 : string) :
  Ascii.eqb c "0" = false -> Ascii.eqb c "1" = false ->
  forall acc,
    Py.bin_value (s1 ++ String c s2) acc = Raise ValueError.
Proof.
  intros H0 H1. induction s1 as [|x s1 IH]; intros acc; simpl.
  - now rewrite H0, H1.
  - destruct (Ascii.eqb x "0"); [apply IH |].
    destruct (Ascii.eqb x "1"); [apply IH | reflexivity].
Qed.

Lemma str_bad_digit (x : Z) :
  x < 0 \/ 2 <= x <= 9 ->
  exists c t,
    Py.str x = String c t /\
    Ascii.eqb c "0" = false /\ Ascii.eqb c "1" = false.
Proof.
  intros [N | R].
  - destruct x as [|p|p]; try lia.
    eexists "-"%char, _. split; [reflexivity | split; reflexivity].
  - assert (x = 2 \/ x = 3 \/ x = 4 \/ x = 5 \/ x = 6 \/ x = 7 \/ x = 8
            \/ x = 9) as C by lia.
    repeat (destruct C as [-> | C];
            [eexists _, _; split; [reflexivity | split; reflexivity] |]).
    subst x. eexists _, _. split; [reflexivity | split; reflexivity].
Qed.

End Errors.

(** X17.  [get_genome_value] raises [ValueError] on the empty genome and on
    every genome that holds a negative entry or one of the digits 2 to 9:
    the joined numeral is not a numeral in base 2. *)
Theorem get_genome_value_rejects :
  get_genome_value [] = Raise ValueError /\
  forall genome x,
    In x genome -> x < 0 \/ 2 <= x <= 9 ->
    get_genome_value genome = Raise ValueError.
Proof.
  split; [reflexivity |]. intros genome x Hx B.
  apply in_split in Hx. destruct Hx as (g1 & g2 & ->).
  destruct (str_bad_digit x B) as (c & t & E & H0 & H1).
  unfold get_genome_value.
  rewrite map_app, join_app. cbn [map]. unfold Py.join at 2.
  cbn [fold_right]. rewrite E. cbn [String.append].
  fold (Py.join (map Py.str g2)).
  pose proof (bin_value_bad_digit c (Py.join (map Py.str g1))
                (t ++ Py.join (map Py.str g2))%string H0 H1 0) as V.
  unfold Py.int_0b.
  destruct (Py.join (map Py.str g1) ++ String c _)%string eqn:S;
    [reflexivity | exact V].
Qed.

Lemma get_genome_value_rejects_witness :
  get_genome_value [1; 0; 2; 1] = Raise ValueError.
Proof.
  destruct get_genome_value_rejects as (_ & R).
  apply (R [1; 0; 2; 1] 2); [simpl; auto | lia].
Defined.



(** X19.  The search does not guarantee a feasible result: in a non-empty
    list of genomes whose fitness is negative infinity throughout, [max]
    keeps the first genome, so a population or a list of winners without a
    feasible genome yields an infeasible winner. *)
Theorem fittest_of_infeasible {rng : Type} {GA : GeneticAlgorithm rng}
    (g : Z) (t : list Z) :
  (forall x, In x (g :: t) -> self_fitness_func x = NINF) ->
  fittest (g :: t) = Ok g.
Proof.
  intros H. unfold fittest, Py.max_key. f_equal.
  assert (Hg : self_fitness_func g = NINF) by (apply H; now left).
  assert (Ht : forall x, In x t -> self_fitness_func x = NINF)
    by (intros x Hx; apply H; now right).
  clear H. induction t as [|y t IH]; [reflexivity |].
  simpl. rewrite Hg, (Ht y (or_introl eq_refl)). simpl.
  apply IH. intros x Hx. apply Ht. now right.
Qed.

Lemma fittest_of_infeasible_witness :
  fittest (GA := Reference.ga 1 scenario []) [15; 7; 11] = Ok 15.
Proof.
  apply (fittest_of_infeasible (GA := Reference.ga 1 scenario []) 15 [7; 11]).
  intros x [<- | [<- | [<- | []]]]; reflexivity.
Defined.
